(** * ComputationalPhysics: the Euler and shooting notebooks

  A shallow embedding of the two notebooks of the repository:

  - "Solving second order ODEs.ipynb": the scalar Euler loop for the simple
    harmonic oscillator, [SHO_deriv], and the vector Euler loop that is run
    on states of shape [2] and [2,2];
  - "BVP.ipynb": [projectile_final_height_error] and the bisection loop
    that searches the initial velocity.

  The notebooks compute with Python floats and NumPy float64 arrays.  The
  code is embedded once, over an interface [Number] of the arithmetic
  operations it uses, and the interface has two instances: binary64
  ([float], what the notebooks run on) and exact rationals ([Q]).  What
  only depends on the shape of the code is proved for every instance.
  What depends on the laws of arithmetic is proved for [Q], which leaves
  overflow, underflow and NaN out of the picture; where binary64 behaves
  otherwise, a run of the binary64 instance on concrete inputs shows it. *)

From Stdlib Require Import ZArith QArith Qabs Lia Lqa Bool.
From Stdlib Require Import PrimFloat Uint63 FloatAxioms.
From stdpp Require Import base list.

Set Warnings "-inexact-float".

(** ** Numbers *)

(** The operations the two notebooks apply to numbers: the literals [0],
    [0.5] and [10], [+ - * /], unary minus, [abs], the comparison [>] and
    the conversion of an index to a number. *)
Class Number (T : Type) := {
  zero : T;
  half : T;
  ten : T;
  add : T -> T -> T;
  sub : T -> T -> T;
  mul : T -> T -> T;
  div : T -> T -> T;
  neg : T -> T;
  absv : T -> T;
  gtb : T -> T -> bool;
  of_nat : nat -> T
}.

Declare Scope num_scope.
Delimit Scope num_scope with num.
Infix "+" := add : num_scope.
Infix "-" := sub : num_scope.
Infix "*" := mul : num_scope.
Infix "/" := div : num_scope.
Notation "- x" := (neg x) : num_scope.
Infix ">?" := gtb (at level 70) : num_scope.

(** [a > b] on rationals, as a boolean. *)
Definition Qgtb (a b : Q) : bool := negb (Qle_bool a b).

#[export] Instance Q_Number : Number Q := {|
  zero := 0%Q;
  half := (1 # 2)%Q;
  ten := 10%Q;
  add := Qplus;
  sub := Qminus;
  mul := Qmult;
  div := Qdiv;
  neg := Qopp;
  absv := Qabs;
  gtb := Qgtb;
  of_nat := fun n => inject_Z (Z.of_nat n)
|}.

(** Python's [float] and NumPy's [float64] are IEEE 754 binary64. *)
#[export] Instance float_Number : Number float := {|
  zero := 0%float;
  half := 0.5%float;
  ten := 10%float;
  add := PrimFloat.add;
  sub := PrimFloat.sub;
  mul := PrimFloat.mul;
  div := PrimFloat.div;
  neg := PrimFloat.opp;
  absv := PrimFloat.abs;
  gtb := fun a b => PrimFloat.ltb b a;
  of_nat := fun n => PrimFloat.of_uint63 (Uint63.of_Z (Z.of_nat n))
|}.

(** ** Python exceptions *)

(** The exceptions the modelled cells can raise: [NameError] for a variable
    read before it is bound, [ValueError] and [IndexError] from NumPy. *)
Inductive PyError := NameError | ValueError | IndexError.

Inductive result (A : Type) :=
| Ok (a : A)
| Raise (e : PyError).
Arguments Ok {A} a.
Arguments Raise {A} e.

Definition bind {A B : Type} (r : result A) (f : A -> result B) : result B :=
  match r with
  | Ok a => f a
  | Raise e => Raise e
  end.

Notation "'let*' x ':=' r 'in' k" := (bind r (fun x => k))
  (at level 10, x name, r at level 100, k at level 200).

(** A [for] loop whose body may raise: the first exception ends it. *)
Fixpoint for_each {A I : Type} (body : A -> I -> result A) (l : list I) (a : A)
  : result A :=
  match l with
  | [] => Ok a
  | i :: l' => let* a' := body a i in for_each body l' a'
  end.

(** ** Solving second order ODEs.ipynb *)

Module ODE.

(** An array with two entries along its first axis, [np.array([a, b])]:
    [y[0]] and [y[1]]. *)
Record arr2 (E : Type) := Arr2 { at0 : E; at1 : E }.
Arguments Arr2 {E} at0 at1.
Arguments at0 {E} a.
Arguments at1 {E} a.

(** What the notebook does with an array entry, which is a number when the
    state has shape [2] and an array when it has shape [2,2]: [np.zeros],
    elementwise [+], and the product and quotient with a number. *)
Class Tensor (T E : Type) := {
  tzeros : E;
  tadd : E -> E -> E;
  tscale : E -> T -> E;
  tlscale : T -> E -> E;
  tdiv : E -> T -> E
}.

#[export] Instance Tensor_number {T : Type} `{Number T} : Tensor T T := {|
  tzeros := zero;
  tadd := add;
  tscale := mul;
  tlscale := mul;
  tdiv := div
|}.

#[export] Instance Tensor_arr2 {T E : Type} `{Tensor T E} : Tensor T (arr2 E) := {|
  tzeros := Arr2 tzeros tzeros;
  tadd := fun a b => Arr2 (tadd (at0 a) (at0 b)) (tadd (at1 a) (at1 b));
  tscale := fun a c => Arr2 (tscale (at0 a) c) (tscale (at1 a) c);
  tlscale := fun c a => Arr2 (tlscale c (at0 a)) (tlscale c (at1 a));
  tdiv := fun a c => Arr2 (tdiv (at0 a) c) (tdiv (at1 a) c)
|}.

(** [y[i]] for an index inside the array (outside, Python raises and this
    returns [d]). *)
Definition item {A : Type} (d : A) (y : list A) (i : nat) : A :=
  default d (y !! i).

Section Notebook.
Context {T : Type} `{Number T}.
Open Scope num_scope.

(** The parameters [m], [k], [dt] of the parameter cell. *)
Variables (m k dt : T).

(** [np.linspace(start, stop, num)], which is NumPy's and not the
    repository's: [arange(num) * step + start] with
    [step = (stop - start) / (num - 1)] and the last entry set to [stop]
    when [num > 1]; for [num <= 1] there is no step and the entries are
    [arange(num) * (stop - start) + start]. *)
Definition linspace (start stop : T) (num : nat) : list T :=
  let delta := stop - start in
  match num with
  | O | S O => map (fun i => of_nat i * delta + start) (seq 0 num)
  | _ =>
      let step := delta / of_nat (num - 1) in
      <[(num - 1)%nat := stop]>
        (map (fun i => of_nat i * step + start) (seq 0 num))
  end.

(** The scalar cell: [x] and [v] in arrays of their own. *)
Definition scalar_step (xv : list T * list T) (i : nat) : list T * list T :=
  let x := xv.1 in
  let v := xv.2 in
  let x := <[S i := item zero x i + item zero v i * dt]> x in
  let v := <[S i := item zero v i - (k * item zero x i / m) * dt]> v in
  (x, v).

Definition scalar_euler (N_steps : nat) (x0 v0 : T) : list T * list T :=
  let x := replicate N_steps zero in
  let v := replicate N_steps zero in
  let x := <[0%nat := x0]> x in
  let v := <[0%nat := v0]> v in
  fold_left scalar_step (seq 0 (N_steps - 1)) (x, v).

(** [SHO_deriv], for an entry type [E]: [x], [v], [dx] and [dv] are
    numbers for a state of shape [2] and arrays for one of shape [2,2]. *)
Definition SHO_deriv {E : Type} `{Tensor T E} (y : arr2 E) (t : T) : arr2 E :=
  let x := at0 y in
  let v := at1 y in
  let dx := v in
  let dv := tdiv (tlscale (- k) x) m in
  Arr2 dx dv.

(** The vector cell, for a state type [St] and a right-hand side [deriv]
    that returns a value of the state's shape:
    [y[i+1] = y[i] + deriv(y[i],time[i]) * dt]. *)
Definition euler_step {St : Type} `{Tensor T St} (deriv : St -> T -> St)
    (time : nat -> T) (y : list St) (i : nat) : list St :=
  <[S i := tadd (item tzeros y i) (tscale (deriv (item tzeros y i) (time i)) dt)]> y.

Definition euler {St : Type} `{Tensor T St} (deriv : St -> T -> St)
    (time : nat -> T) (N_steps : nat) (y0 : St) : list St :=
  let y := replicate N_steps tzeros in
  let y := <[0%nat := y0]> y in
  fold_left (euler_step deriv time) (seq 0 (N_steps - 1)) y.

(** *** The vector cell on NumPy's terms

    The same cell with the array operations as NumPy performs them on
    one-dimensional values of any length: [+] broadcasts an operand of
    length 1 and raises [ValueError] on other unequal lengths, and so does
    the assignment to a row. *)

Definition np_add (a b : list T) : result (list T) :=
  if (length a =? length b)%nat then Ok (zip_with add a b)
  else match a, b with
       | [x], _ => Ok (map (fun y => x + y) b)
       | _, [y] => Ok (map (fun x => x + y) a)
       | _, _ => Raise ValueError
       end.

Definition np_scale (a : list T) (c : T) : list T :=
  map (fun x => x * c) a.

(** [y[i] = v] for a row of [width] entries. *)
Definition np_set_row (width : nat) (v : list T) : result (list T) :=
  if (length v =? width)%nat then Ok v
  else match v with
       | [c] => Ok (replicate width c)
       | _ => Raise ValueError
       end.

Definition np_euler_step (deriv : list T -> T -> list T) (time : nat -> T)
    (y : list (list T)) (i : nat) : result (list (list T)) :=
  let* s := np_add (item [] y i) (np_scale (deriv (item [] y i) (time i)) dt) in
  let* r := np_set_row 2 s in
  Ok (<[S i := r]> y).

(** [np.zeros((N_steps,2))] raises [ValueError] for a negative [N_steps],
    and [y[0] = ...] raises [IndexError] when the array has no row. *)
Definition np_euler (deriv : list T -> T -> list T) (time : nat -> T)
    (N_steps : Z) (x0 v0 : T) : result (list (list T)) :=
  if (N_steps <? 0)%Z then Raise ValueError
  else
    let y := replicate (Z.to_nat N_steps) [zero; zero] in
    if (N_steps =? 0)%Z then Raise IndexError
    else
      let y := <[0%nat := [x0; v0]]> y in
      for_each (np_euler_step deriv time) (seq 0 (Z.to_nat (N_steps - 1))) y.

(** *** Notions the statements use *)

(** The array of the vector cell after the first [j] runs of the loop
    body. *)
Definition partial {St : Type} `{Tensor T St} (deriv : St -> T -> St)
    (time : nat -> T) (N_steps : nat) (y0 : St) (j : nat) : list St :=
  fold_left (euler_step deriv time) (seq 0 j)
    (<[0%nat := y0]> (replicate N_steps tzeros)).

(** The row the loop body computes, on NumPy's terms, from row [r] at time
    [t]. *)
Definition next_row (deriv : list T -> T -> list T) (r : list T) (t : T)
  : result (list T) :=
  let* s := np_add r (np_scale (deriv r t) dt) in np_set_row 2 s.

(** The array of the cell on NumPy's terms after the first [j] runs of the
    loop body, for an array of [N] rows. *)
Definition np_partial (deriv : list T -> T -> list T) (time : nat -> T)
    (x0 v0 : T) (N : nat) (j : nat) : result (list (list T)) :=
  for_each (np_euler_step deriv time) (seq 0 j)
    (<[0%nat := [x0; v0]]> (replicate N [zero; zero])).

(** A right-hand side on states of shape [2], applied to a row. *)
Definition on_rows (deriv : arr2 T -> T -> arr2 T) (l : list T) (t : T)
  : list T :=
  [at0 (deriv (Arr2 (item zero l 0) (item zero l 1)) t);
   at1 (deriv (Arr2 (item zero l 0) (item zero l 1)) t)].

End Notebook.

(** The entry [j] of an array of two entries, and [y[:, j]] for a state of
    shape [2,2]. *)
Inductive ix2 := I0 | I1.

Definition sel {E : Type} (j : ix2) (a : arr2 E) : E :=
  match j with
  | I0 => at0 a
  | I1 => at1 a
  end.

Definition column {E : Type} (j : ix2) (y : arr2 (arr2 E)) : arr2 E :=
  Arr2 (sel j (at0 y)) (sel j (at1 y)).

Definition to_list {E : Type} (a : arr2 E) : list E := [at0 a; at1 a].

(** The arrays [x], [v] of the scalar cell and the array [y] of the vector
    cell hold the same numbers. *)
Definition same_arrays {T : Type} (xv : list T * list T) (y : list (arr2 T))
  : Prop :=
  xv.1 = at0 <$> y /\ xv.2 = at1 <$> y.

End ODE.

(** ** BVP.ipynb: shooting by bisection *)

Module BVP.

Section Shooting.
Context {T : Type} `{Number T}.
Open Scope num_scope.

(** [dist0.y[0,-1]]: the height at [t1] that [integrate.solve_ivp] returns
    for [ball_vertical_RHS], the time span [(t0,t1)] and the initial state
    [[z0, v0]], as a function of [v0].  SciPy's integrator is not part of
    the repository. *)
Variable solve_ivp_final_height : T -> T.

Definition projectile_final_height_error (v0 z1 : T) : T :=
  let err := solve_ivp_final_height v0 - z1 in
  err.

(** The variables of the bisection cell.  [v0_mid] is first bound inside
    the loop, so it is optional.  [evals] is not a variable of the cell: it
    records, in order, the arguments [projectile_final_height_error] was
    called with (every call runs one integration). *)
Record vars := Vars {
  v0_1 : T;
  f_1 : T;
  v0_2 : T;
  f_2 : T;
  iter : Z;
  f_mid : T;
  v0_mid : option T;
  evals : list T
}.

(** The cell up to the [while]: the two bracket evaluations, [iter = 0]
    and [f_mid = 10*tol]. *)
Definition setup (z1 a b tol : T) : vars :=
  {| v0_1 := a;
     f_1 := projectile_final_height_error a z1;
     v0_2 := b;
     f_2 := projectile_final_height_error b z1;
     iter := 0;
     f_mid := ten * tol;
     v0_mid := None;
     evals := [a; b] |}.

(** [abs(f_mid)>tol and iter<max_iter] *)
Definition guard (tol : T) (max_iter : Z) (s : vars) : bool :=
  (absv (f_mid s) >? tol) && (iter s <? max_iter)%Z.

(** The body of the [while]. *)
Definition body (z1 : T) (s : vars) : vars :=
  let v0_mid' := half * (v0_1 s + v0_2 s) in
  let f_mid' := projectile_final_height_error v0_mid' z1 in
  if f_mid' * f_1 s >? zero then
    {| v0_1 := v0_mid'; f_1 := f_mid';
       v0_2 := v0_2 s; f_2 := f_2 s;
       iter := (iter s + 1)%Z;
       f_mid := f_mid'; v0_mid := Some v0_mid';
       evals := evals s ++ [v0_mid'] |}
  else
    {| v0_1 := v0_1 s; f_1 := f_1 s;
       v0_2 := v0_mid'; f_2 := f_mid';
       iter := (iter s + 1)%Z;
       f_mid := f_mid'; v0_mid := Some v0_mid';
       evals := evals s ++ [v0_mid'] |}.

(** The [while] loop, with a bound on the number of iterations it may
    run; [None] when the bound is used up with the guard still true. *)
Fixpoint while (tol : T) (max_iter : Z) (z1 : T) (fuel : nat) (s : vars)
  : option vars :=
  if guard tol max_iter s then
    match fuel with
    | O => None
    | S fuel' => while tol max_iter z1 fuel' (body z1 s)
    end
  else Some s.

(** The whole cell: [iter] counts up from 0 and the guard asks
    [iter < max_iter], so [max_iter] iterations are enough. *)
Definition bisection (z1 a b tol : T) (max_iter : Z) : option vars :=
  while tol max_iter z1 (Z.to_nat max_iter) (setup z1 a b tol).

(** The two [print] calls after the loop: the iteration count, then
    [v0_mid] and [f_mid]. *)
Definition report (s : vars) : result (Z * T * T) :=
  match v0_mid s with
  | Some x => Ok (iter s, x, f_mid s)
  | None => Raise NameError
  end.

(** The variables after [k] runs of the body. *)
Definition after (z1 : T) (k : nat) (s : vars) : vars :=
  Nat.iter k (body z1) s.

End Shooting.

Arguments vars T : clear implicits.

(** *** Notions the statements use, in exact arithmetic *)

(** The midpoint and the residual one run of the body computes. *)
Definition mid (s : vars Q) : Q := ((1 # 2) * (v0_1 s + v0_2 s))%Q.

Definition fmid (h : Q -> Q) (z1 : Q) (s : vars Q) : Q :=
  projectile_final_height_error h (mid s) z1.

(** The two ends of the bracket lie between the two values [a] and [b] the
    caller gave, and apart from each other. *)
Definition inside (a b : Q) (s : vars Q) : Prop :=
  ((a < b)%Q /\ (a <= v0_1 s)%Q /\ (v0_1 s < v0_2 s)%Q /\ (v0_2 s <= b)%Q) \/
  ((b < a)%Q /\ (b <= v0_2 s)%Q /\ (v0_2 s < v0_1 s)%Q /\ (v0_1 s <= a)%Q).

End BVP.

(** ** The notebooks' own numbers *)

(** The time grid of the parameter cell, in binary64:
    [total_t = 10], [dt = 0.01], [N_steps = int(total_t/dt)+1 = 1001] and
    [time = np.linspace(0,total_t,N_steps)]. *)
Definition notebook_grid : list float := ODE.linspace 0%float 10%float 1001.

Definition notebook_time (i : nat) : float := ODE.item zero notebook_grid i.

(** [time[i] == t0 + i*dt] for every [i < n], decided by running it. *)
Definition on_grid (time : nat -> float) (t0 dt : float) (n : nat) : bool :=
  forallb (fun i => Leibniz.eqb (time i) (t0 + of_nat i * dt)%num) (seq 0 n).

(** The residual of the notebook's projectile in closed form: with
    [z(t) = v0*t - g*t^2/2], [t1 = 10], [g = 9.81], the height at [t1] is
    [10*v0 - 490.5]. *)
Definition ball_height_float (v0 : float) : float :=
  (10 * v0 - 490.5)%float.

Definition ball_height_Q (v0 : Q) : Q := (10 * v0 - (4905 # 10))%Q.

(** Two more residuals for runs in binary64, both with their root at 40:
    one whose values are very small, [(v0 - 40) * 1e-200], and one that is
    not a number at 25, as when the integration fails there. *)
Definition small_height (v0 : float) : float :=
  ((v0 - 40) * 1e-200)%float.

Definition broken_height (v0 : float) : float :=
  if PrimFloat.eqb v0 25 then nan else (v0 - 40)%float.


(** ** Further notions the statements use *)

(** [k*x^2 + m*v^2], twice the energy of the oscillator in state [y]. *)
Definition SHO_energy (m k : Q) (y : ODE.arr2 Q) : Q :=
  (k * (ODE.at0 y * ODE.at0 y) + m * (ODE.at1 y * ODE.at1 y))%Q.

(** The arrays of the scalar cell after the first [j] runs of the loop
    body. *)
Definition scalar_partial {T : Type} `{Number T} (m k dt : T) (N_steps : nat)
    (x0 v0 : T) (j : nat) : list T * list T :=
  fold_left (ODE.scalar_step m k dt) (seq 0 j)
    (<[0%nat := x0]> (replicate N_steps zero),
     <[0%nat := v0]> (replicate N_steps zero)).

(** The position of a two-dimensional state is at right angles to its
    velocity, which is [w] times as long: [v = w * (-y, x)]. *)
Definition circular (w : Q) (s : ODE.arr2 (ODE.arr2 Q)) : Prop :=
  (ODE.at0 (ODE.at1 s) == - (w * ODE.at1 (ODE.at0 s)))%Q /\
  (ODE.at1 (ODE.at1 s) == w * ODE.at0 (ODE.at0 s))%Q.

(** [x^2 + y^2], the square of the distance from the origin. *)
Definition radius2 (s : ODE.arr2 (ODE.arr2 Q)) : Q :=
  (ODE.at0 (ODE.at0 s) * ODE.at0 (ODE.at0 s)
   + ODE.at1 (ODE.at0 s) * ODE.at1 (ODE.at0 s))%Q.

(** * Facts *)

(** ** Comparisons of rationals *)

Lemma Qgtb_true (a b : Q) : Qgtb a b = true <-> (b < a)%Q.
Proof.
  unfold Qgtb. rewrite negb_true_iff. split; intros E.
  - apply Qnot_le_lt. intros L. apply Qle_bool_iff in L. congruence.
  - destruct (Qle_bool a b) eqn:B; [|reflexivity].
    apply Qle_bool_iff in B. exfalso. exact (Qlt_not_le _ _ E B).
Qed.

Lemma Qgtb_false (a b : Q) : Qgtb a b = false <-> (a <= b)%Q.
Proof.
  unfold Qgtb. rewrite negb_false_iff. apply Qle_bool_iff.
Qed.

Lemma Qopp_mult_l (a b : Q) : Qmult (Qopp a) b = Qopp (Qmult a b).
Proof.
  destruct a as [an ad], b as [bn bd]. unfold Qmult, Qopp. simpl.
  f_equal. lia.
Qed.

(** The two ways the notebook writes the velocity update give the same
    rational, numerator and denominator. *)
Lemma Q_SHO_dv (k m x dt v : Q) :
  (v - (k * x / m) * dt)%Q = (v + ((- k) * x / m) * dt)%Q.
Proof.
  unfold Qminus, Qdiv. rewrite !Qopp_mult_l. reflexivity.
Qed.

Lemma on_grid_spec (time : nat -> float) (t0 dt : float) (n : nat) :
  on_grid time t0 dt n = true ->
  forall i : nat, (i < n)%nat -> time i = (t0 + of_nat i * dt)%num.
Proof.
  unfold on_grid. rewrite forallb_forall. intros F i Hi.
  apply Leibniz.eqb_spec. apply F. apply in_seq. lia.
Qed.

Lemma for_each_app {A I : Type} (body : A -> I -> result A) (l1 l2 : list I) :
  forall a : A,
    for_each body (l1 ++ l2) a
    = let* a' := for_each body l1 a in for_each body l2 a'.
Proof.
  induction l1 as [|i l1 IH]; intros a; simpl; [reflexivity|].
  destruct (body a i); simpl; [apply IH | reflexivity].
Qed.

(** ** Solving second order ODEs.ipynb *)

Module ODEFacts.
Import ODE.

(** *** The vector cell, row by row *)

Section Vector.
Context {T St : Type} `{Number T} `{Tensor T St}.
Variable dt : T.
Variable deriv : St -> T -> St.
Variable time : nat -> T.
Variable N_steps : nat.
Variable y0 : St.

Local Abbreviation part := (partial dt deriv time N_steps y0).

Lemma partial_succ (j : nat) :
  part (S j) = euler_step dt deriv time (part j) j.
Proof.
  unfold partial. rewrite seq_S, fold_left_app. reflexivity.
Qed.

Lemma euler_partial : euler dt deriv time N_steps y0 = part (N_steps - 1)%nat.
Proof. reflexivity. Qed.

Lemma partial_length (j : nat) : length (part j) = N_steps.
Proof.
  induction j as [|j IH].
  - unfold partial. simpl. rewrite length_insert, length_replicate. reflexivity.
  - rewrite partial_succ. unfold euler_step. rewrite length_insert. exact IH.
Qed.

(** A run of the body writes row [j+1] only. *)
Lemma partial_succ_other (j p : nat) :
  p <> S j -> part (S j) !! p = part j !! p.
Proof.
  intros Hp. rewrite partial_succ. unfold euler_step.
  apply list_lookup_insert_ne. congruence.
Qed.

Lemma partial_stable (j p : nat) :
  (p <= j)%nat -> forall n, (j <= n)%nat -> part n !! p = part j !! p.
Proof.
  intros Hp n Hn. induction Hn as [|n Hn IH]; [reflexivity|].
  rewrite partial_succ_other by lia. exact IH.
Qed.

Lemma partial_succ_new (j : nat) :
  (S j < N_steps)%nat ->
  part (S j) !! S j
  = Some (tadd (item tzeros (part j) j)
            (tscale (deriv (item tzeros (part j) j) (time j)) dt)).
Proof.
  intros Hj. rewrite partial_succ. unfold euler_step.
  apply list_lookup_insert_eq. rewrite partial_length. exact Hj.
Qed.

Lemma partial_first (j : nat) :
  (0 < N_steps)%nat -> part j !! 0%nat = Some y0.
Proof.
  intros HN. rewrite (partial_stable 0 0) by lia.
  unfold partial. simpl. apply list_lookup_insert_eq.
  rewrite length_replicate. exact HN.
Qed.

End Vector.

(** C1.  For every right-hand side [deriv], initial state [y0], start time
    [t0], step [dt] and step count [n], with the grid [time[i] = t0 + i*dt]
    in [time], the vector cell run for [n] steps leaves an array [y] of
    [n+1] states with [y[0] = y0] and, for every [i < n],
    [y[i+1] = y[i] + deriv(y[i], t0 + i*dt) * dt]: the right-hand side is
    evaluated at the left end of each step. *)
Theorem euler_trajectory {T St : Type} `{Number T} `{Tensor T St}
    (deriv : St -> T -> St) (y0 : St) (t0 dt : T) (n : nat) (time : nat -> T) :
  (forall i : nat, (i < n)%nat -> time i = (t0 + of_nat i * dt)%num) ->
  let y := euler dt deriv time (S n) y0 in
  length y = S n /\
  y !! 0%nat = Some y0 /\
  forall i : nat, (i < n)%nat ->
    exists yi : St,
      y !! i = Some yi /\
      y !! S i
      = Some (tadd yi (tscale (deriv yi (t0 + of_nat i * dt)%num) dt)).
Proof.
  intros Htime y. subst y. rewrite euler_partial.
  replace (S n - 1)%nat with n by lia.
  split; [apply partial_length|].
  split; [apply partial_first; lia|].
  intros i Hi.
  destruct (lookup_lt_is_Some_2 (partial dt deriv time (S n) y0 i) i) as [yi Ei].
  { rewrite partial_length. lia. }
  exists yi. split.
  - rewrite (partial_stable _ _ _ _ _ i i) by lia. exact Ei.
  - rewrite (partial_stable _ _ _ _ _ (S i) (S i)) by lia.
    rewrite partial_succ_new by lia.
    unfold item. rewrite Ei. simpl. rewrite Htime by exact Hi. reflexivity.
Qed.

(** [total_t/dt] is exactly 1000 in binary64, so the parameter cell's
    [N_steps = int(total_t/dt)+1] is 1001 and [notebook_grid] is its
    [time]. *)
Example notebook_N_steps :
  (10 / 0.01)%float = 1000%float /\ length notebook_grid = 1001%nat.
Proof. vm_compute. split; reflexivity. Qed.

(** The notebook's own run in binary64: [SHO_deriv] with [m = k = 1],
    [dt = 0.01], 1000 steps from [(x0, v0) = (1, 0)], on the grid
    [np.linspace(0,10,1001)], whose entries are [0 + i*0.01] in binary64
    for every [i < 1000]. *)
Lemma euler_trajectory_notebook :
  let y := euler 0.01%float (SHO_deriv 1%float 1%float) notebook_time 1001
             (Arr2 1%float 0%float) in
  length y = 1001%nat /\
  y !! 0%nat = Some (Arr2 1%float 0%float) /\
  forall i : nat, (i < 1000)%nat ->
    exists yi : arr2 float,
      y !! i = Some yi /\
      y !! S i
      = Some (tadd yi
                (tscale (SHO_deriv 1%float 1%float yi
                           (0%float + of_nat i * 0.01%float)%num)
                   0.01%float)).
Proof.
  apply (euler_trajectory (SHO_deriv 1%float 1%float) (Arr2 1%float 0%float)
           0%float 0.01%float 1000 notebook_time).
  apply on_grid_spec. vm_compute. reflexivity.
Defined.

(** In exact arithmetic [np.linspace(t0, t0 + n*dt, n+1)] is the grid
    [t0 + i*dt]: the parameter cell's [time] has the spacing [dt] whenever
    [total_t] is a whole number [n >= 1] of steps [dt]. *)
Lemma linspace_uniform (t0 dt : Q) (n i : nat) :
  (1 <= n)%nat -> (i <= n)%nat ->
  (item zero (linspace t0 (t0 + of_nat n * dt)%num (S n)) i
   == t0 + of_nat i * dt)%Q.
Proof.
  intros Hn Hi. unfold linspace, item.
  destruct n as [|n]; [lia|].
  replace (S (S n) - 1)%nat with (S n) by lia.
  destruct (decide (i = S n)) as [->|Hne].
  - rewrite list_lookup_insert_eq by (rewrite length_map, length_seq; lia).
    reflexivity.
  - rewrite list_lookup_insert_ne by congruence.
    change (map ?f ?l) with (f <$> l).
    rewrite list_lookup_fmap, lookup_seq_lt by lia. simpl.
    assert (P : (0 < inject_Z (Z.of_nat (S n)))%Q).
    { change 0%Q with (inject_Z 0). rewrite <- Zlt_Qlt. lia. }
    field. lra.
Qed.

Lemma linspace_uniform_notebook :
  (item zero (linspace 0%Q (0%Q + of_nat 1000 * (1 # 100)%Q)%num 1001) 500
   == 0 + of_nat 500 * (1 # 100))%Q.
Proof.
  apply (linspace_uniform 0%Q (1 # 100)%Q 1000 500); lia.
Defined.

(** *** States of shape [2,2], column by column *)

Section Batched.
Context {T : Type} `{Number T}.

Lemma column_tadd (j : ix2) (a b : arr2 (arr2 T)) :
  column j (tadd a b) = tadd (column j a) (column j b).
Proof. destruct j; reflexivity. Qed.

Lemma column_tscale (j : ix2) (a : arr2 (arr2 T)) (c : T) :
  column j (tscale a c) = tscale (column j a) c.
Proof. destruct j; reflexivity. Qed.

Lemma column_tzeros (j : ix2) :
  column j (tzeros : arr2 (arr2 T)) = tzeros.
Proof. destruct j; reflexivity. Qed.

Lemma column_item (j : ix2) (y : list (arr2 (arr2 T))) (i : nat) :
  item tzeros (column j <$> y) i = column j (item tzeros y i).
Proof.
  unfold item. rewrite list_lookup_fmap.
  destruct (y !! i); simpl; [reflexivity | symmetry; apply column_tzeros].
Qed.

(** [SHO_deriv] works on each entry of the last axis by itself. *)
Lemma SHO_deriv_elementwise (m k : T) (j : ix2) (y : arr2 (arr2 T)) (t : T) :
  column j (SHO_deriv m k y t) = SHO_deriv m k (column j y) t.
Proof. destruct j; reflexivity. Qed.

Variable dt : T.
Variable deriv1 : arr2 T -> T -> arr2 T.
Variable deriv2 : arr2 (arr2 T) -> T -> arr2 (arr2 T).
Hypothesis elementwise :
  forall (j : ix2) (y : arr2 (arr2 T)) (t : T),
    column j (deriv2 y t) = deriv1 (column j y) t.
Variable time : nat -> T.

Lemma column_euler_step (j : ix2) (y : list (arr2 (arr2 T))) (i : nat) :
  column j <$> euler_step dt deriv2 time y i
  = euler_step dt deriv1 time (column j <$> y) i.
Proof.
  unfold euler_step. rewrite list_fmap_insert.
  rewrite column_tadd, column_tscale, elementwise, column_item.
  reflexivity.
Qed.

Lemma column_fold (j : ix2) (l : list nat) :
  forall y : list (arr2 (arr2 T)),
    column j <$> fold_left (euler_step dt deriv2 time) l y
    = fold_left (euler_step dt deriv1 time) l (column j <$> y).
Proof.
  induction l as [|i l IH]; intros y; simpl; [reflexivity|].
  rewrite IH, column_euler_step. reflexivity.
Qed.

End Batched.

(** C7.  For a right-hand side that works on each entry of the last axis by
    itself ([deriv2] on shape [2,2] agrees, column by column, with [deriv1]
    on shape [2]), the vector cell run on a state of shape [2,2] gives, in
    each column [j], exactly the array the cell gives when run on that
    column alone, with the same [dt], [time] and [N_steps]. *)
Theorem euler_batched {T : Type} `{Number T}
    (deriv1 : arr2 T -> T -> arr2 T)
    (deriv2 : arr2 (arr2 T) -> T -> arr2 (arr2 T))
    (dt : T) (time : nat -> T) (N_steps : nat) (y0 : arr2 (arr2 T)) (j : ix2) :
  (forall (j : ix2) (y : arr2 (arr2 T)) (t : T),
      column j (deriv2 y t) = deriv1 (column j y) t) ->
  column j <$> euler dt deriv2 time N_steps y0
  = euler dt deriv1 time N_steps (column j y0).
Proof.
  intros E. unfold euler. rewrite (column_fold dt deriv1 deriv2 E).
  rewrite list_fmap_insert, fmap_replicate, column_tzeros. reflexivity.
Qed.

(** The notebook's two-dimensional run in binary64, [x2d0 = (1, 0)] and
    [v2d0 = (0, 1)]: its first column is the one-dimensional run from
    [(x0, v0) = (1, 0)]. *)
Lemma euler_batched_notebook :
  column I0 <$> euler 0.01%float (SHO_deriv 1%float 1%float) notebook_time 1001
                  (Arr2 (Arr2 1%float 0%float) (Arr2 0%float 1%float))
  = euler 0.01%float (SHO_deriv 1%float 1%float) notebook_time 1001
      (Arr2 1%float 0%float).
Proof.
  apply (euler_batched (SHO_deriv 1%float 1%float) (SHO_deriv 1%float 1%float)
           0.01%float notebook_time 1001
           (Arr2 (Arr2 1%float 0%float) (Arr2 0%float 1%float)) I0).
  intros [] y t; reflexivity.
Defined.

(** *** Scalar cell against vector cell *)

Section ScalarVector.
Variables (m k dt : Q).
Variable time : nat -> Q.

Lemma item_at0 (y : list (arr2 Q)) (i : nat) :
  item zero (at0 <$> y) i = at0 (item tzeros y i).
Proof. unfold item. rewrite list_lookup_fmap. destruct (y !! i); reflexivity. Qed.

Lemma item_at1 (y : list (arr2 Q)) (i : nat) :
  item zero (at1 <$> y) i = at1 (item tzeros y i).
Proof. unfold item. rewrite list_lookup_fmap. destruct (y !! i); reflexivity. Qed.

Lemma item_insert_succ {A : Type} (d : A) (l : list A) (i : nat) (a : A) :
  item d (<[S i := a]> l) i = item d l i.
Proof. unfold item. rewrite list_lookup_insert_ne by lia. reflexivity. Qed.

Lemma same_arrays_step (xv : list Q * list Q) (y : list (arr2 Q)) (i : nat) :
  same_arrays xv y ->
  same_arrays (scalar_step m k dt xv i) (euler_step dt (SHO_deriv m k) time y i).
Proof.
  destruct xv as [x v]. intros [Ex Ev]. simpl in Ex, Ev. subst x v.
  unfold same_arrays, scalar_step, euler_step. simpl.
  rewrite !list_fmap_insert. simpl.
  rewrite item_insert_succ, !item_at0, !item_at1.
  split; [reflexivity|].
  f_equal. apply Q_SHO_dv.
Qed.

Lemma same_arrays_fold (l : list nat) :
  forall (xv : list Q * list Q) (y : list (arr2 Q)),
    same_arrays xv y ->
    same_arrays (fold_left (scalar_step m k dt) l xv)
      (fold_left (euler_step dt (SHO_deriv m k) time) l y).
Proof.
  induction l as [|i l IH]; intros xv y E; simpl; [exact E|].
  apply IH, same_arrays_step, E.
Qed.

End ScalarVector.

(** C9.  In exact arithmetic, for every initial condition [(x0, v0)], step
    [dt] and number of steps, the scalar cell (arrays [x] and [v]) and the
    vector cell driven by [SHO_deriv] compute the same numbers:
    [x[i] = y[i][0]] and [v[i] = y[i][1]] for every [i]. *)
Theorem scalar_vector_agree (m k dt x0 v0 : Q) (time : nat -> Q) (N_steps : nat) :
  let xv := scalar_euler m k dt N_steps x0 v0 in
  let y := euler dt (SHO_deriv m k) time N_steps (Arr2 x0 v0) in
  forall i : nat, xv.1 !! i = at0 <$> y !! i /\ xv.2 !! i = at1 <$> y !! i.
Proof.
  intros xv y i.
  assert (E : same_arrays xv y).
  { apply same_arrays_fold. unfold same_arrays. simpl.
    rewrite !list_fmap_insert, !fmap_replicate. split; reflexivity. }
  destruct E as [-> ->]. rewrite !list_lookup_fmap. split; reflexivity.
Qed.

(** The same for the notebook's own run in binary64: all 1001 entries of
    [x] and [v] are the entries of [y]. *)
Example scalar_vector_agree_binary64 :
  let xv := scalar_euler 1%float 1%float 0.01%float 1001 1%float 0%float in
  let y := euler 0.01%float (SHO_deriv 1%float 1%float) notebook_time 1001
             (Arr2 1%float 0%float) in
  forallb (fun p => Leibniz.eqb p.1 p.2) (zip xv.1 (at0 <$> y)) = true /\
  forallb (fun p => Leibniz.eqb p.1 p.2) (zip xv.2 (at1 <$> y)) = true /\
  length xv.1 = 1001%nat /\ length xv.2 = 1001%nat /\ length y = 1001%nat.
Proof. vm_compute. repeat split. Qed.

(** *** The vector cell on NumPy's terms *)

Section NumPy.
Context {T : Type} `{Number T}.
Variable dt : T.
Variable deriv : list T -> T -> list T.
Variable time : nat -> T.
Variables (x0 v0 : T).

Lemma np_euler_step_next (y : list (list T)) (i : nat) :
  np_euler_step dt deriv time y i
  = let* r := next_row dt deriv (item [] y i) (time i) in Ok (<[S i := r]> y).
Proof.
  unfold np_euler_step, next_row.
  destruct (np_add _ _); simpl; [|reflexivity].
  destruct (np_set_row _ _); reflexivity.
Qed.

Lemma np_partial_succ (N j : nat) :
  np_partial dt deriv time x0 v0 N (S j)
  = let* y := np_partial dt deriv time x0 v0 N j in
    np_euler_step dt deriv time y j.
Proof.
  unfold np_partial. rewrite seq_S, for_each_app. simpl.
  destruct (for_each _ _ _); simpl; [|reflexivity].
  destruct (np_euler_step _ _ _ _ _); reflexivity.
Qed.

(** A property of rows that the initial row has and that the loop body
    keeps, without raising, holds of every row written so far. *)
Lemma np_partial_rows (N : nat) (P : list T -> Prop) :
  P [x0; v0] ->
  (forall (r : list T) (t : T),
     P r -> exists r', next_row dt deriv r t = Ok r' /\ P r') ->
  forall j : nat, (j < N)%nat ->
    exists y : list (list T),
      np_partial dt deriv time x0 v0 N j = Ok y /\ length y = N /\
      forall p : nat, (p <= j)%nat -> exists r, y !! p = Some r /\ P r.
Proof.
  intros P0 Pstep. induction j as [|j IH]; intros Hj.
  - eexists. split; [reflexivity|].
    split; [rewrite length_insert, length_replicate; reflexivity|].
    intros p Hp. assert (p = 0%nat) as -> by lia.
    exists [x0; v0]. split; [|exact P0].
    apply list_lookup_insert_eq. rewrite length_replicate. exact Hj.
  - destruct IH as [y [E [L R]]]; [lia|].
    rewrite np_partial_succ, E. simpl. rewrite np_euler_step_next.
    destruct (R j) as [r [Er Pr]]; [lia|].
    unfold item. rewrite Er. simpl.
    destruct (Pstep r (time j) Pr) as [r' [En Pr']]. rewrite En. simpl.
    eexists. split; [reflexivity|].
    split; [rewrite length_insert; exact L|].
    intros p Hp. destruct (decide (p = S j)) as [->|Hne].
    + exists r'. split; [|exact Pr'].
      apply list_lookup_insert_eq. lia.
    + rewrite list_lookup_insert_ne by congruence. apply R. lia.
Qed.

Lemma np_euler_partial (n : nat) :
  np_euler dt deriv time (Z.of_nat (S n)) x0 v0
  = np_partial dt deriv time x0 v0 (S n) n.
Proof.
  unfold np_euler, np_partial.
  destruct (Z.ltb_spec (Z.of_nat (S n)) 0); [lia|].
  destruct (Z.eqb_spec (Z.of_nat (S n)) 0); [lia|].
  rewrite Nat2Z.id. replace (Z.to_nat (Z.of_nat (S n) - 1)) with n by lia.
  reflexivity.
Qed.

Lemma np_scale_length (a : list T) : length (np_scale a dt) = length a.
Proof. unfold np_scale. apply length_map. Qed.

(** A right-hand side value of length 2 or 1 is accepted. *)
Lemma next_row_accepts (r : list T) (t : T) :
  length r = 2%nat ->
  (length (deriv r t) = 2%nat \/ length (deriv r t) = 1%nat) ->
  exists r', next_row dt deriv r t = Ok r' /\ length r' = 2%nat.
Proof.
  intros Lr Ld. unfold next_row, np_add. rewrite np_scale_length, Lr.
  destruct Ld as [Ld | Ld]; rewrite Ld.
  - assert (L : length (zip_with add r (np_scale (deriv r t) dt)) = 2%nat).
    { rewrite length_zip_with, np_scale_length, Lr, Ld. reflexivity. }
    cbn [Nat.eqb bind]. unfold np_set_row. rewrite L. cbn [Nat.eqb].
    eexists. split; [reflexivity | exact L].
  - cbn [Nat.eqb].
    destruct r as [|a [|b [|? ?]]]; try discriminate.
    destruct (np_scale (deriv [a; b] t) dt) as [|c [|? ?]] eqn:E;
      try (apply (f_equal length) in E; rewrite np_scale_length, Ld in E;
           discriminate).
    eexists. split; reflexivity.
Qed.

(** A right-hand side value of any other length raises [ValueError]. *)
Lemma next_row_rejects (r : list T) (t : T) :
  length r = 2%nat ->
  length (deriv r t) <> 2%nat -> length (deriv r t) <> 1%nat ->
  next_row dt deriv r t = Raise ValueError.
Proof.
  intros Lr L2 L1. unfold next_row, np_add. rewrite np_scale_length, Lr.
  destruct r as [|a [|b [|? ?]]]; try discriminate.
  destruct (Nat.eqb_spec 2 (length (deriv [a; b] t))); [congruence|].
  destruct (np_scale (deriv [a; b] t) dt) as [|c [|? ?]] eqn:E;
    try reflexivity.
  apply (f_equal length) in E. rewrite np_scale_length in E. simpl in E.
  congruence.
Qed.

Lemma np_euler_negative (N_steps : Z) :
  (N_steps < 0)%Z ->
  np_euler dt deriv time N_steps x0 v0 = Raise ValueError.
Proof.
  intros HN. unfold np_euler.
  destruct (Z.ltb_spec N_steps 0); [reflexivity | lia].
Qed.

Lemma np_euler_zero :
  np_euler dt deriv time 0 x0 v0 = Raise IndexError.
Proof. reflexivity. Qed.

Lemma np_euler_accepts (N_steps : Z) :
  (0 < N_steps)%Z ->
  (forall (r : list T) (t : T), length r = 2%nat ->
     length (deriv r t) = 2%nat \/ length (deriv r t) = 1%nat) ->
  exists y : list (list T),
    np_euler dt deriv time N_steps x0 v0 = Ok y /\
    length y = Z.to_nat N_steps /\
    forall p : nat, (p < Z.to_nat N_steps)%nat ->
      exists r, y !! p = Some r /\ length r = 2%nat.
Proof.
  intros HN Hd.
  destruct (Z.to_nat N_steps) as [|n] eqn:En; [lia|].
  replace N_steps with (Z.of_nat (S n)) by lia.
  rewrite np_euler_partial.
  destruct (np_partial_rows (S n) (fun r => length r = 2%nat) eq_refl)
    with (j := n) as [y [E [L R]]]; [|lia|].
  { intros r t Lr. apply next_row_accepts; [exact Lr | apply Hd, Lr]. }
  exists y. repeat split; [exact E | exact L |].
  intros p Hp. apply R. lia.
Qed.

Lemma np_euler_rejects (N_steps : Z) :
  (1 < N_steps)%Z ->
  length (deriv [x0; v0] (time 0%nat)) <> 2%nat ->
  length (deriv [x0; v0] (time 0%nat)) <> 1%nat ->
  np_euler dt deriv time N_steps x0 v0 = Raise ValueError.
Proof.
  intros HN L2 L1. unfold np_euler.
  destruct (Z.ltb_spec N_steps 0); [lia|].
  destruct (Z.eqb_spec N_steps 0); [lia|].
  destruct (Z.to_nat (N_steps - 1)) as [|k] eqn:Ek; [lia|].
  destruct (Z.to_nat N_steps) as [|[|N]] eqn:EN; try lia.
  rewrite <- cons_seq. cbn [for_each].
  rewrite np_euler_step_next.
  replace (item [] (<[0%nat:=[x0; v0]]> (replicate (S (S N)) [zero; zero])) 0)
    with [x0; v0] by reflexivity.
  rewrite next_row_rejects by (reflexivity || assumption).
  reflexivity.
Qed.

End NumPy.

(** *** The two forms of the vector cell *)

Section Typed.
Context {T : Type} `{Number T}.
Variable dt : T.
Variable deriv : arr2 T -> T -> arr2 T.
Variable time : nat -> T.
Variables (x0 v0 : T).

Lemma np_euler_step_typed (y : list (arr2 T)) (i : nat) :
  (i < length y)%nat ->
  np_euler_step dt (on_rows deriv) time (to_list <$> y) i
  = Ok (to_list <$> euler_step dt deriv time y i).
Proof.
  intros Hi. destruct (lookup_lt_is_Some_2 y i Hi) as [[a b] E].
  unfold np_euler_step, euler_step, item.
  rewrite list_lookup_fmap, E. simpl.
  rewrite list_fmap_insert. reflexivity.
Qed.

Lemma np_partial_typed (N j : nat) :
  (j < N)%nat ->
  np_partial dt (on_rows deriv) time x0 v0 N j
  = Ok (to_list <$> partial dt deriv time N (Arr2 x0 v0) j).
Proof.
  induction j as [|j IH]; intros Hj.
  - unfold np_partial, partial. simpl.
    rewrite list_fmap_insert, fmap_replicate. reflexivity.
  - rewrite np_partial_succ, IH by lia. simpl.
    rewrite np_euler_step_typed by (rewrite partial_length; lia).
    rewrite partial_succ. reflexivity.
Qed.

(** With a right-hand side that returns the state's shape and at least one
    row, the cell on NumPy's terms raises nothing and computes the rows of
    [euler]. *)
Lemma np_euler_typed (n : nat) :
  np_euler dt (on_rows deriv) time (Z.of_nat (S n)) x0 v0
  = Ok (to_list <$> euler dt deriv time (S n) (Arr2 x0 v0)).
Proof.
  rewrite np_euler_partial, np_partial_typed by lia.
  rewrite euler_partial. replace (S n - 1)%nat with n by lia. reflexivity.
Qed.

End Typed.

(** *** What the vector cell checks *)

(** With [dt = 0], in exact arithmetic, a right-hand side value of the
    state's shape leaves the row as it was. *)
Lemma next_row_dt_zero (deriv : list Q -> Q -> list Q) (x0 v0 : Q)
    (r : list Q) (t : Q) :
  (forall (r : list Q) (t : Q),
     length r = 2%nat -> length (deriv r t) = 2%nat) ->
  Forall2 Qeq r [x0; v0] ->
  exists r', next_row 0%Q deriv r t = Ok r' /\ Forall2 Qeq r' [x0; v0].
Proof.
  intros Hd Hr.
  assert (Lr : length r = 2%nat) by (apply Forall2_length in Hr; exact Hr).
  specialize (Hd r t Lr).
  destruct r as [|a [|b [|? ?]]]; try discriminate.
  destruct (deriv [a; b] t) as [|c [|e [|? ?]]] eqn:Ed; try discriminate.
  unfold next_row. rewrite Ed. eexists. split; [reflexivity|].
  apply Forall2_cons_iff in Hr as [Ha Hr].
  apply Forall2_cons_iff in Hr as [Hb _].
  repeat constructor; simpl; [rewrite <- Ha | rewrite <- Hb]; ring.
Qed.

Lemma np_euler_dt_zero (deriv : list Q -> Q -> list Q) (time : nat -> Q)
    (x0 v0 : Q) (N_steps : Z) :
  (0 < N_steps)%Z ->
  (forall (r : list Q) (t : Q),
     length r = 2%nat -> length (deriv r t) = 2%nat) ->
  exists y : list (list Q),
    np_euler 0%Q deriv time N_steps x0 v0 = Ok y /\
    length y = Z.to_nat N_steps /\
    forall p : nat, (p < Z.to_nat N_steps)%nat ->
      exists r, y !! p = Some r /\ Forall2 Qeq r [x0; v0].
Proof.
  intros HN Hd.
  destruct (Z.to_nat N_steps) as [|n] eqn:En; [lia|].
  replace N_steps with (Z.of_nat (S n)) by lia.
  rewrite np_euler_partial.
  destruct (np_partial_rows 0%Q deriv time x0 v0 (S n)
              (fun r => Forall2 Qeq r [x0; v0])) with (j := n)
    as [y [E [L R]]]; [| |lia|].
  { repeat constructor; reflexivity. }
  { intros r t Pr. apply next_row_dt_zero; assumption. }
  exists y. repeat split; [exact E | exact L |].
  intros p Hp. apply R. lia.
Qed.

(** C8, as the code has it.  The vector cell checks nothing itself; what
    is refused is what NumPy refuses.  A negative [N_steps] raises
    [ValueError] when the array is made and [N_steps = 0] raises
    [IndexError] at [y[0] = ...], so every step count [N_steps - 1 < 0]
    fails.  A one-dimensional right-hand side value whose length is not the
    state's is not always refused: one of shape [1] is broadcast, and one
    that has neither 2 entries nor 1 raises [ValueError] (shown for the
    first step).  With values of 2 entries or 1 and [N_steps >= 1] nothing
    is raised, whatever [dt] is, and with [dt = 0] and values of the state's
    shape every row equals the initial state. *)
Theorem euler_checks (deriv : list Q -> Q -> list Q) (time : nat -> Q)
    (dt x0 v0 : Q) (N_steps : Z) :
  ((N_steps < 0)%Z ->
   np_euler dt deriv time N_steps x0 v0 = Raise ValueError) /\
  (N_steps = 0%Z ->
   np_euler dt deriv time N_steps x0 v0 = Raise IndexError) /\
  ((0 < N_steps)%Z ->
   (forall (r : list Q) (t : Q), length r = 2%nat ->
      length (deriv r t) = 2%nat \/ length (deriv r t) = 1%nat) ->
   exists y : list (list Q),
     np_euler dt deriv time N_steps x0 v0 = Ok y /\
     length y = Z.to_nat N_steps) /\
  ((1 < N_steps)%Z ->
   length (deriv [x0; v0] (time 0%nat)) <> 2%nat ->
   length (deriv [x0; v0] (time 0%nat)) <> 1%nat ->
   np_euler dt deriv time N_steps x0 v0 = Raise ValueError) /\
  ((0 < N_steps)%Z ->
   (forall (r : list Q) (t : Q),
      length r = 2%nat -> length (deriv r t) = 2%nat) ->
   exists y : list (list Q),
     np_euler 0%Q deriv time N_steps x0 v0 = Ok y /\
     length y = Z.to_nat N_steps /\
     forall p : nat, (p < Z.to_nat N_steps)%nat ->
       exists r, y !! p = Some r /\ Forall2 Qeq r [x0; v0]).
Proof.
  split; [apply np_euler_negative|].
  split; [intros ->; apply np_euler_zero|].
  split.
  { intros HN Hd.
    destruct (np_euler_accepts dt deriv time x0 v0 N_steps HN Hd)
      as [y [E [L _]]].
    exists y. split; assumption. }
  split; [apply np_euler_rejects|].
  apply np_euler_dt_zero.
Qed.

(** [euler_checks] at [SHO_deriv] with [m = k = 1] from [(1, 0)] and at
    right-hand sides that return 1 and 3 entries. *)
Lemma euler_checks_cases :
  np_euler (1 # 100)%Q (on_rows (SHO_deriv 1%Q 1%Q)) (fun _ => 0%Q) (-2) 1%Q 0%Q
  = Raise ValueError /\
  np_euler (1 # 100)%Q (on_rows (SHO_deriv 1%Q 1%Q)) (fun _ => 0%Q) 0 1%Q 0%Q
  = Raise IndexError /\
  (exists y : list (list Q),
     np_euler (1 # 100)%Q (fun _ _ => [1%Q]) (fun _ => 0%Q) 3 1%Q 0%Q = Ok y /\
     length y = 3%nat) /\
  np_euler (1 # 100)%Q (fun _ _ => [1%Q; 1%Q; 1%Q]) (fun _ => 0%Q) 3 1%Q 0%Q
  = Raise ValueError /\
  (exists y : list (list Q),
     np_euler 0%Q (on_rows (SHO_deriv 1%Q 1%Q)) (fun _ => 0%Q) 3 1%Q 0%Q = Ok y /\
     length y = 3%nat /\
     forall p : nat, (p < 3)%nat ->
       exists r, y !! p = Some r /\ Forall2 Qeq r [1%Q; 0%Q]).
Proof.
  destruct (euler_checks (on_rows (SHO_deriv 1%Q 1%Q)) (fun _ => 0%Q)
              (1 # 100)%Q 1%Q 0%Q (-2)) as (A & _).
  destruct (euler_checks (on_rows (SHO_deriv 1%Q 1%Q)) (fun _ => 0%Q)
              (1 # 100)%Q 1%Q 0%Q 0) as (_ & B & _).
  destruct (euler_checks (fun _ _ => [1%Q]) (fun _ => 0%Q)
              (1 # 100)%Q 1%Q 0%Q 3) as (_ & _ & C & _).
  destruct (euler_checks (fun _ _ => [1%Q; 1%Q; 1%Q]) (fun _ => 0%Q)
              (1 # 100)%Q 1%Q 0%Q 3) as (_ & _ & _ & D & _).
  destruct (euler_checks (on_rows (SHO_deriv 1%Q 1%Q)) (fun _ => 0%Q)
              (1 # 100)%Q 1%Q 0%Q 3) as (_ & _ & _ & _ & E).
  split; [apply A; lia|].
  split; [apply B; reflexivity|].
  split; [apply C; [lia | intros r t _; right; reflexivity]|].
  split; [apply D; [lia | discriminate | discriminate]|].
  apply E; [lia | intros r t _; reflexivity].
Defined.

(** A right-hand side that returns an array of shape [1] for a state of
    shape [2]: the cell raises nothing and broadcasts the value. *)
Lemma shape_mismatch_accepted :
  length [1%Q] <> length [1%Q; 0%Q] /\
  np_euler 1%Q (fun _ _ => [1%Q]) (fun _ => 0%Q) 3 1%Q 0%Q
  = Ok [[1%Q; 0%Q]; [2%Q; 1%Q]; [3%Q; 2%Q]].
Proof. split; [discriminate | vm_compute; reflexivity]. Qed.

End ODEFacts.

(** ** BVP.ipynb *)

Module BVPFacts.
Import BVP.

(** *** For every arithmetic *)

Section Generic.
Context {T : Type} `{Number T}.
Variable h : T -> T.
Variables (z1 tol : T) (max_iter : Z).
Open Scope num_scope.

Lemma iter_body (s : vars T) : iter (body h z1 s) = (iter s + 1)%Z.
Proof. unfold body. destruct (gtb _ _); reflexivity. Qed.

Lemma evals_body (s : vars T) :
  evals (body h z1 s) = evals s ++ [half * (v0_1 s + v0_2 s)].
Proof. unfold body. destruct (gtb _ _); reflexivity. Qed.

Lemma v0_mid_body (s : vars T) :
  v0_mid (body h z1 s) = Some (half * (v0_1 s + v0_2 s)).
Proof. unfold body. destruct (gtb _ _); reflexivity. Qed.

Lemma f_mid_body (s : vars T) :
  f_mid (body h z1 s)
  = projectile_final_height_error h (half * (v0_1 s + v0_2 s)) z1.
Proof. unfold body. destruct (gtb _ _); reflexivity. Qed.

Lemma after_succ_r (k : nat) (s : vars T) :
  after h z1 (S k) s = after h z1 k (body h z1 s).
Proof. unfold after. apply Nat.iter_succ_r. Qed.

Lemma iter_after (k : nat) (s : vars T) :
  iter (after h z1 k s) = (iter s + Z.of_nat k)%Z.
Proof.
  induction k as [|k IH].
  - simpl. lia.
  - change (after h z1 (S k) s) with (body h z1 (after h z1 k s)).
    rewrite iter_body, IH. lia.
Qed.

Lemma evals_after (k : nat) (s : vars T) :
  exists mids, evals (after h z1 k s) = evals s ++ mids /\ length mids = k.
Proof.
  induction k as [|k [mids [E L]]].
  - exists []. simpl. split; [symmetry; apply app_nil_r | reflexivity].
  - change (after h z1 (S k) s) with (body h z1 (after h z1 k s)).
    rewrite evals_body, E.
    exists (mids ++ [half * (v0_1 (after h z1 k s) + v0_2 (after h z1 k s))]).
    split; [symmetry; apply app_assoc|].
    rewrite length_app. simpl. lia.
Qed.

(** The loop never uses up [max_iter - iter] runs of the body. *)
Lemma while_total (fuel : nat) :
  forall s : vars T,
    (Z.to_nat (max_iter - iter s) <= fuel)%nat ->
    exists s', while h tol max_iter z1 fuel s = Some s'.
Proof.
  induction fuel as [|fuel IH]; intros s Hf; simpl.
  - destruct (guard tol max_iter s) eqn:G; [|eauto].
    unfold guard in G. apply andb_prop in G as [_ G].
    apply Z.ltb_lt in G. lia.
  - destruct (guard tol max_iter s) eqn:G; [|eauto].
    apply IH. rewrite iter_body.
    unfold guard in G. apply andb_prop in G as [_ G].
    apply Z.ltb_lt in G. lia.
Qed.

(** What the loop returns is the first state, in the sequence of states
    the body produces, at which the guard is false. *)
Lemma while_trace (fuel : nat) :
  forall s s' : vars T,
    while h tol max_iter z1 fuel s = Some s' ->
    exists k : nat,
      s' = after h z1 k s /\ guard tol max_iter s' = false /\
      forall j : nat, (j < k)%nat -> guard tol max_iter (after h z1 j s) = true.
Proof.
  induction fuel as [|fuel IH]; intros s s' W; simpl in W;
    destruct (guard tol max_iter s) eqn:G; try discriminate.
  - injection W as <-. exists O. repeat split; [exact G | intros j Hj; lia].
  - apply IH in W as [k [E [G' B]]]. exists (S k).
    rewrite after_succ_r. repeat split; [exact E | exact G' |].
    intros [|j] Hj; [exact G|]. rewrite after_succ_r. apply B. lia.
  - injection W as <-. exists O. repeat split; [exact G | intros j Hj; lia].
Qed.

Lemma bisection_trace (a b : T) :
  exists (k : nat) (s : vars T),
    bisection h z1 a b tol max_iter = Some s /\
    s = after h z1 k (setup h z1 a b tol) /\
    iter s = Z.of_nat k /\
    guard tol max_iter s = false /\
    forall j : nat, (j < k)%nat ->
      guard tol max_iter (after h z1 j (setup h z1 a b tol)) = true.
Proof.
  destruct (while_total (Z.to_nat max_iter) (setup h z1 a b tol)) as [s W].
  { simpl. rewrite Z.sub_0_r. lia. }
  destruct (while_trace _ _ _ W) as [k [E [G B]]].
  exists k, s. repeat split; try assumption.
  rewrite E, iter_after. reflexivity.
Qed.

(** The loop returns the state after [k] runs of the body as soon as the
    guard is true before each of them and false after the last. *)
Lemma while_reaches (k : nat) :
  forall (fuel : nat) (s : vars T),
    (forall j : nat, (j < k)%nat -> guard tol max_iter (after h z1 j s) = true) ->
    guard tol max_iter (after h z1 k s) = false ->
    (k <= fuel)%nat ->
    while h tol max_iter z1 fuel s = Some (after h z1 k s).
Proof.
  induction k as [|k IH]; intros fuel s F G Hf.
  - simpl in G. destruct fuel; simpl; rewrite G; reflexivity.
  - destruct fuel as [|fuel]; [lia|].
    assert (G0 : guard tol max_iter s = true) by (apply (F 0%nat); lia).
    cbn [while]. rewrite G0, after_succ_r.
    apply IH; [|rewrite <- after_succ_r; exact G | lia].
    intros j Hj. rewrite <- after_succ_r. apply F. lia.
Qed.

(** The body reads neither [f_mid] nor [v0_mid]: what it computes does not
    depend on the tolerance the cell was set up with. *)
Lemma body_setup (a b tol' : T) :
  body h z1 (setup h z1 a b tol) = body h z1 (setup h z1 a b tol').
Proof. reflexivity. Qed.

Lemma after_setup (a b tol' : T) (k : nat) :
  (1 <= k)%nat ->
  after h z1 k (setup h z1 a b tol) = after h z1 k (setup h z1 a b tol').
Proof.
  destruct k as [|k]; [lia|]. intros _.
  rewrite !after_succ_r. rewrite (body_setup a b tol'). reflexivity.
Qed.

(** After a run of the body [v0_mid] is bound, and the two [print] calls
    show [iter], [v0_mid] and [f_mid]. *)
Lemma report_after (k : nat) (s : vars T) :
  (1 <= k)%nat ->
  exists x : T,
    v0_mid (after h z1 k s) = Some x /\
    report (after h z1 k s)
    = Ok (iter (after h z1 k s), x, f_mid (after h z1 k s)).
Proof.
  destruct k as [|k]; [lia|]. intros _.
  change (after h z1 (S k) s) with (body h z1 (after h z1 k s)).
  eexists. split; [apply v0_mid_body|].
  unfold report. rewrite v0_mid_body. reflexivity.
Qed.

End Generic.

(** *** In exact arithmetic *)

Section Exact.
Variable h : Q -> Q.
Variables (z1 a b tol : Q).
Variable max_iter : Z.

Lemma body_cases (s : vars Q) :
  ((0 < fmid h z1 s * f_1 s)%Q /\
   body h z1 s
   = {| v0_1 := mid s; f_1 := fmid h z1 s; v0_2 := v0_2 s; f_2 := f_2 s;
        iter := iter s + 1; f_mid := fmid h z1 s; v0_mid := Some (mid s);
        evals := evals s ++ [mid s] |}) \/
  ((fmid h z1 s * f_1 s <= 0)%Q /\
   body h z1 s
   = {| v0_1 := v0_1 s; f_1 := f_1 s; v0_2 := mid s; f_2 := fmid h z1 s;
        iter := iter s + 1; f_mid := fmid h z1 s; v0_mid := Some (mid s);
        evals := evals s ++ [mid s] |}).
Proof.
  unfold body. destruct (gtb _ _) eqn:G.
  - left. split; [apply Qgtb_true in G; exact G | reflexivity].
  - right. split; [apply Qgtb_false in G; exact G | reflexivity].
Qed.

Lemma sign_kept (fm f1 f2 : Q) :
  (0 < fm * f1 -> f1 * f2 <= 0 -> fm * f2 <= 0)%Q.
Proof.
  intros P N.
  destruct (Q_dec fm 0) as [[L|G]|E].
  - assert (f1 < 0)%Q by nra. assert (0 <= f2)%Q by nra. nra.
  - assert (0 < f1)%Q by nra. assert (f2 <= 0)%Q by nra. nra.
  - exfalso. rewrite E in P. lra.
Qed.

Lemma body_keeps_sign (s : vars Q) :
  (f_1 s * f_2 s <= 0)%Q ->
  (f_1 (body h z1 s) * f_2 (body h z1 s) <= 0)%Q.
Proof.
  intros I. destruct (body_cases s) as [[P ->] | [P ->]]; simpl.
  - apply sign_kept with (f1 := f_1 s); assumption.
  - rewrite Qmult_comm. exact P.
Qed.

Lemma body_halves (s : vars Q) :
  (v0_2 (body h z1 s) - v0_1 (body h z1 s) == (v0_2 s - v0_1 s) / 2)%Q.
Proof.
  destruct (body_cases s) as [[_ ->] | [_ ->]]; simpl; unfold mid; field.
Qed.

Lemma guard_true (s : vars Q) :
  guard tol max_iter s = true <->
  (tol < Qabs (f_mid s))%Q /\ (iter s < max_iter)%Z.
Proof.
  unfold guard. rewrite andb_true_iff, Z.ltb_lt.
  split; intros [A B]; (split; [apply Qgtb_true; exact A | exact B]).
Qed.

Lemma guard_false (s : vars Q) :
  guard tol max_iter s = false <->
  (Qabs (f_mid s) <= tol)%Q \/ (max_iter <= iter s)%Z.
Proof.
  unfold guard. rewrite andb_false_iff, Z.ltb_ge.
  split; (intros [A | B]; [left; apply Qgtb_false; exact A | right; exact B]).
Qed.

(** [f_mid = 10*tol] makes the guard true on entry. *)
Lemma guard_setup :
  (0 < tol)%Q -> (1 <= max_iter)%Z ->
  guard tol max_iter (setup h z1 a b tol) = true.
Proof.
  intros Ht Hm. apply guard_true. split; [|simpl; lia].
  change (f_mid (setup h z1 a b tol)) with (10 * tol)%Q.
  rewrite Qabs_pos by lra. lra.
Qed.

Lemma inside_setup : ~ (a == b)%Q -> inside a b (setup h z1 a b tol).
Proof.
  intros Hab. unfold inside. simpl.
  destruct (Q_dec a b) as [[L|G]|E]; [left | right | contradiction]; lra.
Qed.

Lemma inside_body (s : vars Q) : inside a b s -> inside a b (body h z1 s).
Proof.
  unfold inside.
  destruct (body_cases s) as [[_ ->] | [_ ->]]; simpl; unfold mid;
    intros [I | I]; [left | right | left | right]; lra.
Qed.

Lemma inside_after (k : nat) :
  ~ (a == b)%Q -> inside a b (after h z1 k (setup h z1 a b tol)).
Proof.
  intros Hab. induction k as [|k IH]; [apply inside_setup, Hab|].
  change (after h z1 (S k) (setup h z1 a b tol))
    with (body h z1 (after h z1 k (setup h z1 a b tol))).
  apply inside_body, IH.
Qed.

Lemma inside_mid (s : vars Q) :
  inside a b s -> ~ (mid s == a)%Q /\ ~ (mid s == b)%Q.
Proof.
  unfold inside, mid. intros [I | I]; split; intros E; lra.
Qed.

End Exact.

Lemma Qabs_nonzero (x : Q) : ~ (x == 0)%Q -> (0 < Qabs x)%Q.
Proof.
  intros Hx. destruct (Qlt_le_dec x 0) as [L | L].
  - rewrite Qabs_neg by lra. lra.
  - rewrite Qabs_pos by lra. lra.
Qed.

(** The guard is false on entry exactly when [tol] is zero, so that
    [f_mid = 10*tol] is zero too, or [max_iter] is not positive. *)
Lemma guard_setup_false (h : Q -> Q) (z1 a b tol : Q) (max_iter : Z) :
  guard tol max_iter (setup h z1 a b tol) = false <->
  (tol == 0)%Q \/ (max_iter <= 0)%Z.
Proof.
  rewrite guard_false.
  change (f_mid (setup h z1 a b tol)) with (10 * tol)%Q.
  change (iter (setup h z1 a b tol)) with 0%Z.
  split; intros [A | B]; auto.
  - left. destruct (Qlt_le_dec tol 0) as [L | L].
    + pose proof (Qabs_nonneg (10 * tol)). lra.
    + rewrite Qabs_pos in A by lra. lra.
  - left. rewrite A. discriminate.
Qed.

(** A run that ends converged after [k >= 1] iterations with a residual
    that is not zero leaves the very variables of a run that used up its
    iterations: the run with half that residual as [tol] and [k] as
    [max_iter]. *)
Lemma exhausted_twin (h : Q -> Q) (z1 a b tol : Q) (max_iter : Z) (k : nat) :
  (1 <= k)%nat ->
  (forall j : nat, (j < k)%nat ->
     guard tol max_iter (after h z1 j (setup h z1 a b tol)) = true) ->
  (Qabs (f_mid (after h z1 k (setup h z1 a b tol))) <= tol)%Q ->
  ~ (f_mid (after h z1 k (setup h z1 a b tol)) == 0)%Q ->
  exists tol' : Q,
    (0 < tol')%Q /\
    (tol' < Qabs (f_mid (after h z1 k (setup h z1 a b tol))))%Q /\
    bisection h z1 a b tol' (Z.of_nat k)
    = Some (after h z1 k (setup h z1 a b tol)).
Proof.
  intros Hk F C NZ.
  remember (after h z1 k (setup h z1 a b tol)) as s eqn:Es.
  pose proof (Qabs_nonzero _ NZ) as P.
  remember ((1 # 2) * Qabs (f_mid s))%Q as tol' eqn:Et.
  assert (Eq : (tol' == (1 # 2) * Qabs (f_mid s))%Q) by (rewrite Et; reflexivity).
  clear Et.
  exists tol'. split; [lra|]. split; [lra|].
  rewrite (after_setup h z1 tol a b tol' k Hk) in Es.
  unfold bisection. rewrite Nat2Z.id, Es.
  apply while_reaches; [| |lia].
  - intros [|j] Hj.
    + apply guard_setup; [lra | lia].
    + rewrite <- (after_setup h z1 tol a b tol' (S j)) by lia.
      apply guard_true. specialize (F (S j) Hj). apply guard_true in F as [F _].
      split; [lra|]. rewrite iter_after. simpl. lia.
  - apply guard_false. right. rewrite iter_after. simpl. lia.
Qed.

(** C2.  One run of the loop body computes [xmid = 0.5*(x1+x2)] and
    [fmid = residual(xmid)].  If [fmid * f1 > 0], which an [fmid] equal to
    zero does not satisfy, the low end becomes [(xmid, fmid)] and the high end
    is kept; otherwise the high end becomes [(xmid, fmid)] and the low end is
    kept.  So exactly one end is replaced. *)
Theorem bisection_step (h : Q -> Q) (z1 : Q) (s : vars Q) :
  let xmid := (half * (v0_1 s + v0_2 s))%num in
  let fm := projectile_final_height_error h xmid z1 in
  let s' := body h z1 s in
  xmid = ((1 # 2) * (v0_1 s + v0_2 s))%Q /\
  v0_mid s' = Some xmid /\ f_mid s' = fm /\
  (((0 < fm * f_1 s)%Q /\ ~ (fm == 0)%Q /\
    v0_1 s' = xmid /\ f_1 s' = fm /\ v0_2 s' = v0_2 s /\ f_2 s' = f_2 s) \/
   ((fm * f_1 s <= 0)%Q /\
    v0_1 s' = v0_1 s /\ f_1 s' = f_1 s /\ v0_2 s' = xmid /\ f_2 s' = fm)).
Proof.
  intros xmid fm s'. subst s'.
  split; [reflexivity|].
  split; [apply v0_mid_body|]. split; [apply f_mid_body|].
  destruct (body_cases h z1 s) as [[P ->] | [P ->]]; [left | right]; simpl.
  - repeat split; try reflexivity; [exact P|].
    intros Z. change (fmid h z1 s == 0)%Q in Z. rewrite Z in P. lra.
  - repeat split; try reflexivity. exact P.
Qed.

(** C3, as the code has it.  The cell does not compare the signs of the two
    residuals and has no failure of its own: for every pair of ends, also
    one whose residuals are both positive or both negative, the loop runs
    to its end, and beyond the two evaluations at the ends the residual is
    evaluated once in every run of the loop body. *)
Theorem bisection_no_bracket_check {T : Type} `{Number T}
    (h : T -> T) (z1 a b tol : T) (max_iter : Z) :
  exists (s : vars T) (mids : list T),
    bisection h z1 a b tol max_iter = Some s /\
    evals s = [a; b] ++ mids /\
    Z.of_nat (length mids) = iter s.
Proof.
  destruct (bisection_trace h z1 tol max_iter a b) as [k [s [B [E [I _]]]]].
  destruct (evals_after h z1 k (setup h z1 a b tol)) as [mids [Ev L]].
  exists s, mids. split; [exact B|]. rewrite E. split; [exact Ev|].
  rewrite L, <- E. symmetry. exact I.
Qed.

(** A residual that is 1 everywhere: both ends of the bracket [(0, 50)]
    have a positive residual, and the cell runs its three iterations,
    evaluating the residual at three midpoints. *)
Lemma same_sign_bracket_runs :
  (0 < projectile_final_height_error (fun _ : Q => 1%Q) 0%Q 0%Q)%Q /\
  (0 < projectile_final_height_error (fun _ : Q => 1%Q) 50%Q 0%Q)%Q /\
  option_map (fun s => (iter s, map Qred (evals s)))
    (bisection (fun _ : Q => 1%Q) 0%Q 0%Q 50%Q (1 # 1000)%Q 3)
  = Some (3%Z, [0%Q; 50%Q; 25%Q; (75 # 2)%Q; (175 # 4)%Q]).
Proof. repeat split. Qed.

(** C4, as the code has it.  For every arithmetic, the loop always ends
    and raises nothing, also when it runs out of iterations: it ends at the
    first state at which the test [abs(f_mid)>tol and iter<max_iter] is
    false.  When the body has not run (so for [max_iter <= 0]) [v0_mid] is
    not bound and the last [print] raises [NameError]; otherwise the cell
    shows [iter], [v0_mid] and [f_mid], and nothing else.

    In exact arithmetic the test is false exactly when [|f_mid| <= tol] or
    [iter >= max_iter]; a run that has not converged has used all its
    iterations; and the body does not run, so that the last [print] raises
    [NameError], exactly when [tol] is zero or [max_iter <= 0].  What the
    cell leaves does not say why the loop ended: a run that ends converged
    with a residual that is not zero leaves the very variables of a run
    that is out of iterations, the run with a smaller tolerance and
    [max_iter = iter].  The two are told apart only by comparing [f_mid]
    and [iter] with the inputs [tol] and [max_iter]. *)
Theorem bisection_termination :
  (forall (T : Type) (N : Number T) (h : T -> T) (z1 a b tol : T)
          (max_iter : Z),
     exists (k : nat) (s : vars T),
       bisection h z1 a b tol max_iter = Some s /\
       s = after h z1 k (setup h z1 a b tol) /\
       iter s = Z.of_nat k /\
       guard tol max_iter s = false /\
       (forall j : nat, (j < k)%nat ->
          guard tol max_iter (after h z1 j (setup h z1 a b tol)) = true) /\
       ((max_iter <= 0)%Z -> k = 0%nat) /\
       (k = 0%nat -> report s = Raise NameError) /\
       ((1 <= k)%nat ->
        exists x : T,
          v0_mid s = Some x /\ report s = Ok (iter s, x, f_mid s))) /\
  (forall (h : Q -> Q) (z1 a b tol : Q) (max_iter : Z),
     exists (k : nat) (s : vars Q),
       bisection h z1 a b tol max_iter = Some s /\
       s = after h z1 k (setup h z1 a b tol) /\
       iter s = Z.of_nat k /\
       ((Qabs (f_mid s) <= tol)%Q \/ (max_iter <= iter s)%Z) /\
       (forall j : nat, (j < k)%nat ->
          (tol < Qabs (f_mid (after h z1 j (setup h z1 a b tol))))%Q /\
          (iter (after h z1 j (setup h z1 a b tol)) < max_iter)%Z) /\
       ((Qabs (f_mid s) <= tol)%Q \/
        ((tol < Qabs (f_mid s))%Q /\ iter s = Z.max 0 max_iter)) /\
       (k = 0%nat <-> (tol == 0)%Q \/ (max_iter <= 0)%Z) /\
       (report s = Raise NameError <-> (tol == 0)%Q \/ (max_iter <= 0)%Z) /\
       ((1 <= k)%nat -> (Qabs (f_mid s) <= tol)%Q -> ~ (f_mid s == 0)%Q ->
        exists tol' : Q,
          (0 < tol')%Q /\ (tol' < Qabs (f_mid s))%Q /\
          bisection h z1 a b tol' (iter s) = Some s)).
Proof.
  split.
  - intros T N h z1 a b tol max_iter.
    destruct (bisection_trace h z1 tol max_iter a b) as [k [s [B [E [I [G F]]]]]].
    exists k, s.
    split; [exact B|]. split; [exact E|]. split; [exact I|].
    split; [exact G|]. split; [exact F|].
    split; [|split].
    + intros Hm. destruct k as [|k]; [reflexivity|].
      assert (G0 : guard tol max_iter (after h z1 0 (setup h z1 a b tol)) = true)
        by (apply F; lia).
      unfold guard in G0. apply andb_prop in G0 as [_ G0].
      apply Z.ltb_lt in G0. simpl in G0. lia.
    + intros ->. rewrite E. reflexivity.
    + intros Hk. rewrite E. apply report_after, Hk.
  - intros h z1 a b tol max_iter.
    destruct (bisection_trace h z1 tol max_iter a b) as [k [s [B [E [I [G F]]]]]].
    exists k, s.
    split; [exact B|]. split; [exact E|]. split; [exact I|].
    split; [apply guard_false; exact G|].
    split; [intros j Hj; apply guard_true, F, Hj|].
    assert (K0 : k = 0%nat <-> (tol == 0)%Q \/ (max_iter <= 0)%Z).
    { rewrite <- (guard_setup_false h z1 a b tol max_iter). split.
      - intros ->. simpl in E. rewrite <- E. exact G.
      - intros G0. destruct k as [|k]; [reflexivity|].
        assert (G1 : guard tol max_iter (setup h z1 a b tol) = true)
          by (apply (F 0%nat); lia).
        congruence. }
    split; [|split; [exact K0|split]].
    + destruct (Qlt_le_dec tol (Qabs (f_mid s))) as [L|L]; [right | left; exact L].
      split; [exact L|].
      apply guard_false in G as [G|G]; [lra|].
      destruct k as [|k].
      * rewrite I in G. rewrite I. simpl in G. simpl. lia.
      * assert (Hk : guard tol max_iter (after h z1 k (setup h z1 a b tol)) = true)
          by (apply F; lia).
        apply guard_true in Hk as [_ Hk].
        rewrite iter_after in Hk. simpl in Hk. lia.
    + rewrite <- K0. split.
      * intros R. destruct k as [|k]; [reflexivity|].
        destruct (report_after h z1 (S k) (setup h z1 a b tol)) as [x [_ Rx]];
          [lia|].
        rewrite <- E in Rx. congruence.
      * intros ->. rewrite E. reflexivity.
    + intros Hk C NZ. rewrite I. rewrite E in C, NZ |- *.
      apply (exhausted_twin h z1 a b tol max_iter k Hk F C NZ).
Qed.

(** The result does not tell the two ways of ending apart.  The
    notebook's search with [tol = 1e-3] and [max_iter = 100] converges
    after 18 iterations; with [tol = 1e-4] and [max_iter = 18] it runs out
    of iterations.  Both runs leave the same variables and print the same
    three numbers, in binary64 and in exact arithmetic.  And in binary64 a
    residual that is not a number ends the loop after one iteration with
    neither [|f_mid| <= tol] nor [iter >= max_iter]. *)
Lemma exit_cause_not_in_result :
  (exists s : vars float,
     bisection ball_height_float 0 0 50 0.001 100 = Some s /\
     bisection ball_height_float 0 0 50 0.0001 18 = Some s /\
     report s = Ok (18%Z, 49.049949645996094, -0.0005035400390625) /\
     PrimFloat.leb (abs (f_mid s)) 0.001 = true /\
     (iter s <? 100)%Z = true /\
     PrimFloat.ltb 0.0001 (abs (f_mid s)) = true /\
     (iter s =? 18)%Z = true)%float /\
  (exists s : vars Q,
     bisection ball_height_Q 0 0 50 (1 # 1000) 100 = Some s /\
     bisection ball_height_Q 0 0 50 (1 # 10000) 18 = Some s /\
     option_map Qred (v0_mid s) = Some (6429075 # 131072) /\
     Qred (f_mid s) = - (33 # 65536) /\
     Qabs (f_mid s) <= 1 # 1000 /\ (iter s < 100)%Z /\
     1 # 10000 < Qabs (f_mid s) /\ iter s = 18%Z)%Q /\
  (exists s : vars float,
     bisection (fun _ => nan) 0 0 50 0.001 100 = Some s /\
     report s = Ok (1%Z, 25, nan) /\
     PrimFloat.leb (abs (f_mid s)) 0.001 = false /\
     (100 <=? iter s)%Z = false)%float.
Proof.
  split; [|split].
  - eexists. split; [vm_compute; reflexivity|]. vm_compute. repeat split.
  - eexists. split; [vm_compute; reflexivity|].
    split; [vm_compute; reflexivity|].
    split; [vm_compute; reflexivity|].
    split; [vm_compute; reflexivity|].
    split; [apply Qle_bool_imp_le; vm_compute; reflexivity|].
    split; [vm_compute; reflexivity|].
    split; vm_compute; reflexivity.
  - eexists. split; [vm_compute; reflexivity|]. vm_compute. repeat split.
Qed.

(** C5.  In exact arithmetic, if the initial bracket has [f1 * f2 <= 0],
    so has the bracket after every run of the loop body, and so has the
    bracket the cell ends with. *)
Theorem bracket_sign_invariant (h : Q -> Q) (z1 a b tol : Q) (max_iter : Z) :
  (f_1 (setup h z1 a b tol) * f_2 (setup h z1 a b tol) <= 0)%Q ->
  (forall k : nat,
     (f_1 (after h z1 k (setup h z1 a b tol))
      * f_2 (after h z1 k (setup h z1 a b tol)) <= 0)%Q) /\
  exists s : vars Q,
    bisection h z1 a b tol max_iter = Some s /\ (f_1 s * f_2 s <= 0)%Q.
Proof.
  intros I0.
  assert (A : forall k : nat,
             (f_1 (after h z1 k (setup h z1 a b tol))
              * f_2 (after h z1 k (setup h z1 a b tol)) <= 0)%Q).
  { induction k as [|k IH]; [exact I0|].
    change (after h z1 (S k) (setup h z1 a b tol))
      with (body h z1 (after h z1 k (setup h z1 a b tol))).
    apply body_keeps_sign, IH. }
  split; [exact A|].
  destruct (bisection_trace h z1 tol max_iter a b) as [k [s [B [E _]]]].
  exists s. split; [exact B|]. rewrite E. apply A.
Qed.

(** The notebook's bracket in exact arithmetic: the residuals at 0 and 50
    are -490.5 and 9.5. *)
Lemma bracket_sign_invariant_notebook :
  (forall k : nat,
     (f_1 (after ball_height_Q 0%Q k (setup ball_height_Q 0%Q 0%Q 50%Q (1 # 1000)%Q))
      * f_2 (after ball_height_Q 0%Q k (setup ball_height_Q 0%Q 0%Q 50%Q (1 # 1000)%Q))
      <= 0)%Q) /\
  exists s : vars Q,
    bisection ball_height_Q 0%Q 0%Q 50%Q (1 # 1000)%Q 100 = Some s /\
    (f_1 s * f_2 s <= 0)%Q.
Proof.
  apply (bracket_sign_invariant ball_height_Q 0%Q 0%Q 50%Q (1 # 1000)%Q 100).
  apply Qle_bool_imp_le. reflexivity.
Defined.

(** In binary64 the invariant can be lost.  The residual
    [(v0 - 40) * 1e-200] has its root at 40, and at the ends of the bracket
    [(0, 50)] it is negative and positive.  At the midpoint 25 it is
    negative like [f_1], but the product [f_mid*f_1], about [6e-398], is
    rounded to 0: the test [f_mid*f_1>0] is false and the high end is
    replaced.  Both residuals are negative from then on, neither is zero,
    and the root is outside the bracket; with [tol = 1e-250] the cell uses
    its 100 iterations and ends with the bracket [(0, 3.94e-29)].  A
    residual that is not a number at the midpoint is taken for the high end
    as well, and then [f_1*f_2 <= 0] is false. *)
Lemma sign_invariant_lost_binary64 :
  (PrimFloat.ltb (f_1 (setup small_height 0 0 50 1e-250)) 0 = true /\
   PrimFloat.ltb 0 (f_2 (setup small_height 0 0 50 1e-250)) = true /\
   PrimFloat.leb (f_1 (setup small_height 0 0 50 1e-250)
                  * f_2 (setup small_height 0 0 50 1e-250)) 0 = true)%float /\
  (exists s : vars float,
     s = after small_height 0%float 1 (setup small_height 0 0 50 1e-250) /\
     v0_mid s = Some 25 /\ PrimFloat.ltb (f_mid s) 0 = true /\
     f_mid s * f_1 (setup small_height 0 0 50 1e-250) = 0 /\
     v0_1 s = 0 /\ v0_2 s = 25 /\
     PrimFloat.ltb (f_1 s) 0 = true /\ PrimFloat.ltb (f_2 s) 0 = true)%float /\
  (exists s : vars float,
     bisection small_height 0 0 50 1e-250 100 = Some s /\
     iter s = 100%Z /\
     v0_1 s = 0 /\ v0_2 s = 3.944304526105059e-29 /\
     PrimFloat.ltb (f_1 s) 0 = true /\ PrimFloat.ltb (f_2 s) 0 = true)%float /\
  (PrimFloat.leb (f_1 (setup broken_height 0 0 50 0.001)
                  * f_2 (setup broken_height 0 0 50 0.001)) 0 = true /\
   exists s : vars float,
     s = after broken_height 0%float 1 (setup broken_height 0 0 50 0.001) /\
     v0_1 s = 0 /\ f_1 s = -40 /\ v0_2 s = 25 /\
     PrimFloat.leb (f_1 s * f_2 s) 0 = false)%float.
Proof.
  split; [vm_compute; repeat split|].
  split; [eexists; split; [reflexivity|]; vm_compute; repeat split|].
  split; [eexists; split; [vm_compute; reflexivity|]; vm_compute; repeat split|].
  split; [vm_compute; reflexivity|].
  eexists. split; [reflexivity|]. vm_compute. repeat split.
Qed.

(** C6, in exact arithmetic.  After [k] runs of the loop body the width of
    the bracket is the initial width divided by [2^k], whatever the
    residual is. *)
Theorem bracket_width_halves (h : Q -> Q) (z1 a b tol : Q) (k : nat) :
  let s := after h z1 k (setup h z1 a b tol) in
  (Qabs (v0_2 s - v0_1 s) == Qabs (b - a) / inject_Z (2 ^ Z.of_nat k))%Q.
Proof.
  intros s. subst s.
  assert (P : forall k : nat, (0 < inject_Z (2 ^ Z.of_nat k))%Q).
  { intros n. change 0%Q with (inject_Z 0). rewrite <- Zlt_Qlt. lia. }
  assert (W : (v0_2 (after h z1 k (setup h z1 a b tol))
               - v0_1 (after h z1 k (setup h z1 a b tol))
               == (b - a) / inject_Z (2 ^ Z.of_nat k))%Q).
  { induction k as [|k IH].
    - simpl. change (inject_Z (2 ^ Z.of_nat 0)) with 1%Q. field.
    - change (after h z1 (S k) (setup h z1 a b tol))
        with (body h z1 (after h z1 k (setup h z1 a b tol))).
      rewrite body_halves, IH.
      replace (2 ^ Z.of_nat (S k))%Z with (2 * 2 ^ Z.of_nat k)%Z
        by (rewrite Nat2Z.inj_succ, Z.pow_succ_r by lia; reflexivity).
      rewrite inject_Z_mult. specialize (P k). field. lra. }
  rewrite W. unfold Qdiv. rewrite Qabs_Qmult.
  rewrite (Qabs_pos (/ inject_Z (2 ^ Z.of_nat k))); [reflexivity|].
  apply Qlt_le_weak, Qinv_lt_0_compat, P.
Qed.

(** In binary64 the width stops halving.  On the notebook's bracket
    [(0, 50)], with the projectile's residual and [tol = 1e-20], the cell
    ends after 49 iterations with the bracket
    [(49.049999999999905, 49.049999999999997)], whose width is not
    [50 / 2^49].  And one run of the body on the two neighbouring numbers 1
    and [1 + 2^-52] returns 1 as the midpoint: the width stays [2^-52] and is
    not [2^-52 / 2]. *)
Lemma width_not_halved_binary64 :
  (exists s : vars float,
     bisection ball_height_float 0 0 50 1e-20 100 = Some s /\
     iter s = 49%Z /\
     v0_1 s = 49.049999999999905 /\ v0_2 s = 49.049999999999997 /\
     PrimFloat.abs (v0_2 s - v0_1 s) = 9.2370555648813024e-14 /\
     PrimFloat.abs (50 - 0) / 0x1p+49 = 8.8817841970012523e-14 /\
     PrimFloat.eqb (PrimFloat.abs (v0_2 s - v0_1 s))
       (PrimFloat.abs (50 - 0) / 0x1p+49) = false)%float /\
  (let s := after ball_height_float 0 1
              (setup ball_height_float 0 1 1.0000000000000002 0.001) in
   v0_mid s = Some 1 /\
   PrimFloat.abs (v0_2 s - v0_1 s) = 2.2204460492503131e-16 /\
   PrimFloat.abs (1.0000000000000002 - 1) / 0x1p+1 = 1.1102230246251565e-16 /\
   PrimFloat.eqb (PrimFloat.abs (v0_2 s - v0_1 s))
     (PrimFloat.abs (1.0000000000000002 - 1) / 0x1p+1) = false)%float.
Proof.
  split.
  - eexists. split; [vm_compute; reflexivity|]. vm_compute. repeat split.
  - vm_compute. repeat split.
Qed.

(** C10.  [f_mid] starts at [10*tol], so with [tol > 0] and
    [max_iter >= 1] the loop body runs at least once, whatever the residuals
    at the two ends are.  What the cell reports is therefore the midpoint
    the last run of the body computed, with the residual that run evaluated
    at it, and not an end of the bracket as the caller gave it; as a number
    it differs from both ends whenever they differ. *)
Theorem bisection_reports_midpoint (h : Q -> Q) (z1 a b tol : Q) (max_iter : Z) :
  (0 < tol)%Q -> (1 <= max_iter)%Z ->
  exists (j : nat) (s : vars Q),
    bisection h z1 a b tol max_iter = Some s /\
    let p := after h z1 j (setup h z1 a b tol) in
    let xmid := (half * (v0_1 p + v0_2 p))%num in
    s = body h z1 p /\
    iter s = Z.of_nat (S j) /\
    report s = Ok (iter s, xmid, projectile_final_height_error h xmid z1) /\
    last (evals s) = Some xmid /\
    (~ (a == b)%Q -> ~ (xmid == a)%Q /\ ~ (xmid == b)%Q).
Proof.
  intros Ht Hm.
  destruct (bisection_trace h z1 tol max_iter a b) as [k [s [B [E [I [G F]]]]]].
  destruct k as [|j].
  { simpl in E. subst s. rewrite guard_setup in G by assumption. discriminate. }
  exists j, s. split; [exact B|].
  intros p xmid.
  assert (Es : s = body h z1 p) by exact E.
  split; [exact Es|]. split; [exact I|].
  split.
  { unfold report. rewrite Es, v0_mid_body, f_mid_body. reflexivity. }
  split.
  { rewrite Es, evals_body. apply last_snoc. }
  intros Hab. apply (inside_mid a b p). apply inside_after, Hab.
Qed.

Lemma bisection_reports_midpoint_notebook :
  exists (j : nat) (s : vars Q),
    bisection ball_height_Q 0%Q 0%Q 50%Q (1 # 1000)%Q 100 = Some s /\
    let p :=
      after ball_height_Q 0%Q j (setup ball_height_Q 0%Q 0%Q 50%Q (1 # 1000)%Q) in
    let xmid := (half * (v0_1 p + v0_2 p))%num in
    s = body ball_height_Q 0%Q p /\
    iter s = Z.of_nat (S j) /\
    report s
    = Ok (iter s, xmid, projectile_final_height_error ball_height_Q xmid 0%Q) /\
    last (evals s) = Some xmid /\
    (~ (0 == 50)%Q -> ~ (xmid == 0)%Q /\ ~ (xmid == 50)%Q).
Proof.
  apply (bisection_reports_midpoint ball_height_Q 0%Q 0%Q 50%Q (1 # 1000)%Q 100).
  - reflexivity.
  - lia.
Defined.

(** *** The notebook's own run *)

(** In binary64, with the projectile's residual in closed form, the cell
    ends as the notebook's stored output says: after 18 iterations, at
    [v0_mid = 49.049949645996094]. *)
Example notebook_run :
  option_map (fun s => (iter s, v0_mid s))
    (bisection ball_height_float 0 0 50 0.001 100)%float
  = Some (18%Z, Some 49.049949645996094%float).
Proof. vm_compute. reflexivity. Qed.

(** Before the first run of the body [v0_mid] is not bound, and the last
    [print] would raise [NameError]; after a run it is. *)
Lemma report_setup {T : Type} `{Number T} (h : T -> T) (z1 a b tol : T) :
  report (setup h z1 a b tol) = Raise NameError.
Proof. reflexivity. Qed.

Lemma report_body {T : Type} `{Number T} (h : T -> T) (z1 : T) (s : vars T) :
  report (body h z1 s)
  = Ok ((iter s + 1)%Z, (half * (v0_1 s + v0_2 s))%num,
        projectile_final_height_error h (half * (v0_1 s + v0_2 s))%num z1).
Proof.
  unfold report. rewrite v0_mid_body, f_mid_body, iter_body. reflexivity.
Qed.

(** With [max_iter <= 0] the loop body never runs: the cell ends with the
    variables as they were set up, and its last [print] raises
    [NameError]. *)
Lemma report_without_iteration {T : Type} `{Number T}
    (h : T -> T) (z1 a b tol : T) (max_iter : Z) :
  (max_iter <= 0)%Z ->
  bisection h z1 a b tol max_iter = Some (setup h z1 a b tol) /\
  report (setup h z1 a b tol) = Raise NameError.
Proof.
  intros Hm. split; [|reflexivity].
  unfold bisection. replace (Z.to_nat max_iter) with O by lia.
  unfold while, guard.
  replace (iter (setup h z1 a b tol) <? max_iter)%Z with false.
  - rewrite andb_false_r. reflexivity.
  - symmetry. apply Z.ltb_ge. simpl. exact Hm.
Qed.

Lemma report_without_iteration_binary64 :
  bisection ball_height_float 0%float 0%float 50%float 0.001%float 0
  = Some (setup ball_height_float 0%float 0%float 50%float 0.001%float) /\
  report (setup ball_height_float 0%float 0%float 50%float 0.001%float)
  = Raise NameError.
Proof.
  apply (report_without_iteration ball_height_float
           0%float 0%float 50%float 0.001%float 0).
  lia.
Defined.

End BVPFacts.

(** * Further facts *)

From Stdlib Require Import Qpower.

(** ** Solving second order ODEs.ipynb *)

Module ODEMore.
Import ODE ODEFacts.

(** *** Rows of the vector cell *)

Section Lookup.
Context {T St : Type} `{Number T} `{Tensor T St}.
Variable dt : T.
Variable deriv : St -> T -> St.
Variable time : nat -> T.
Variable N_steps : nat.
Variable y0 : St.

Lemma euler_length : length (euler dt deriv time N_steps y0) = N_steps.
Proof. rewrite euler_partial. apply partial_length. Qed.

Lemma euler_lookup_zero :
  (0 < N_steps)%nat -> euler dt deriv time N_steps y0 !! 0%nat = Some y0.
Proof. intros HN. rewrite euler_partial. apply partial_first, HN. Qed.

Lemma euler_lookup_succ (i : nat) :
  (S i < N_steps)%nat ->
  exists yi : St,
    euler dt deriv time N_steps y0 !! i = Some yi /\
    euler dt deriv time N_steps y0 !! S i
    = Some (tadd yi (tscale (deriv yi (time i)) dt)).
Proof.
  intros Hi. rewrite euler_partial.
  destruct (lookup_lt_is_Some_2 (partial dt deriv time N_steps y0 i) i)
    as [yi Ei].
  { rewrite partial_length. lia. }
  exists yi. split.
  - rewrite (partial_stable _ _ _ _ _ i i) by lia. exact Ei.
  - rewrite (partial_stable _ _ _ _ _ (S i) (S i)) by lia.
    rewrite partial_succ_new by lia.
    unfold item. rewrite Ei. reflexivity.
Qed.

End Lookup.

(** Restart.  The rows of a run from row [j] on are the rows of a run of
    its own that starts from row [j], with the time grid shifted by [j]:
    a run can be stopped and taken up again. *)
Theorem euler_restart {T St : Type} `{Number T} `{Tensor T St}
    (dt : T) (deriv : St -> T -> St) (time : nat -> T) (N_steps : nat)
    (y0 : St) (j i : nat) :
  (j + i < N_steps)%nat ->
  let y := euler dt deriv time N_steps y0 in
  y !! (j + i)%nat
  = euler dt deriv (fun p => time (j + p)%nat) (N_steps - j) (item tzeros y j) !! i.
Proof.
  intros Hji y. induction i as [|i IH].
  - rewrite euler_lookup_zero by lia. rewrite Nat.add_0_r. unfold item.
    destruct (lookup_lt_is_Some_2 y j) as [yj Ej].
    { unfold y. rewrite euler_length. lia. }
    rewrite Ej. reflexivity.
  - destruct (euler_lookup_succ dt deriv time N_steps y0 (j + i)) as [a [Ea Es]];
      [lia|].
    destruct (euler_lookup_succ dt deriv (fun p => time (j + p)%nat)
                (N_steps - j) (item tzeros y j) i) as [b [Eb Et]]; [lia|].
    replace (j + S i)%nat with (S (j + i)) by lia.
    fold y in Ea, Es. rewrite Es, Et.
    rewrite IH in Ea by lia. rewrite Eb in Ea. injection Ea as ->.
    reflexivity.
Qed.

(** The notebook's one-dimensional run in binary64, taken up again at row
    500. *)
Lemma euler_restart_notebook :
  let y := euler 0.01%float (SHO_deriv 1%float 1%float) notebook_time 1001
             (Arr2 1%float 0%float) in
  y !! (500 + 100)%nat
  = euler 0.01%float (SHO_deriv 1%float 1%float)
      (fun p => notebook_time (500 + p)%nat) (1001 - 500) (item tzeros y 500)
    !! 100%nat.
Proof.
  apply (euler_restart 0.01%float (SHO_deriv 1%float 1%float) notebook_time
           1001 (Arr2 1%float 0%float) 500 100).
  lia.
Defined.

(** *** The scalar cell *)

Section Scalar.
Context {T : Type} `{Number T}.
Variables (m k dt : T).
Variable N_steps : nat.
Variables (x0 v0 : T).

Local Abbreviation sp := (scalar_partial m k dt N_steps x0 v0).

Lemma scalar_partial_succ (j : nat) :
  sp (S j) = scalar_step m k dt (sp j) j.
Proof. unfold scalar_partial. rewrite seq_S, fold_left_app. reflexivity. Qed.

Lemma scalar_euler_partial :
  scalar_euler m k dt N_steps x0 v0 = sp (N_steps - 1)%nat.
Proof. reflexivity. Qed.

Lemma scalar_partial_length (j : nat) :
  length (sp j).1 = N_steps /\ length (sp j).2 = N_steps.
Proof.
  induction j as [|j [IH1 IH2]].
  - unfold scalar_partial. simpl.
    rewrite !length_insert, !length_replicate. split; reflexivity.
  - rewrite scalar_partial_succ. unfold scalar_step. simpl.
    rewrite !length_insert. split; assumption.
Qed.

Lemma scalar_partial_succ_other (j p : nat) :
  p <> S j ->
  (sp (S j)).1 !! p = (sp j).1 !! p /\ (sp (S j)).2 !! p = (sp j).2 !! p.
Proof.
  intros Hp. rewrite scalar_partial_succ. unfold scalar_step. simpl.
  split; apply list_lookup_insert_ne; congruence.
Qed.

Lemma scalar_partial_stable (j p : nat) :
  (p <= j)%nat -> forall n, (j <= n)%nat ->
  (sp n).1 !! p = (sp j).1 !! p /\ (sp n).2 !! p = (sp j).2 !! p.
Proof.
  intros Hp n Hn. induction Hn as [|n Hn [IH1 IH2]]; [split; reflexivity|].
  destruct (scalar_partial_succ_other n p) as [E1 E2]; [lia|].
  rewrite E1, E2. split; assumption.
Qed.

Lemma scalar_partial_succ_new (j : nat) (xj vj : T) :
  (S j < N_steps)%nat ->
  (sp j).1 !! j = Some xj -> (sp j).2 !! j = Some vj ->
  (sp (S j)).1 !! S j = Some (xj + vj * dt)%num /\
  (sp (S j)).2 !! S j = Some (vj - (k * xj / m) * dt)%num.
Proof.
  intros Hj Ex Ev. destruct (scalar_partial_length j) as [L1 L2].
  rewrite scalar_partial_succ. unfold scalar_step. simpl.
  rewrite !list_lookup_insert_eq by lia.
  unfold item. rewrite list_lookup_insert_ne by lia. rewrite Ex, Ev.
  split; reflexivity.
Qed.

End Scalar.

(** The scalar cell.  Run for [n] steps it leaves two arrays [x] and [v]
    of [n+1] numbers with [x[0] = x0], [v[0] = v0] and, for every [i < n],
    [x[i+1] = x[i] + v[i]*dt] and [v[i+1] = v[i] - (k*x[i]/m)*dt]: the
    velocity is updated from the old position, although [x[i+1]] is already
    written when it is computed. *)
Theorem scalar_euler_trajectory {T : Type} `{Number T}
    (m k dt x0 v0 : T) (n : nat) :
  let xv := scalar_euler m k dt (S n) x0 v0 in
  length xv.1 = S n /\ length xv.2 = S n /\
  xv.1 !! 0%nat = Some x0 /\ xv.2 !! 0%nat = Some v0 /\
  forall i : nat, (i < n)%nat ->
    exists xi vi : T,
      xv.1 !! i = Some xi /\ xv.2 !! i = Some vi /\
      xv.1 !! S i = Some (xi + vi * dt)%num /\
      xv.2 !! S i = Some (vi - (k * xi / m) * dt)%num.
Proof.
  intros xv. subst xv. rewrite scalar_euler_partial.
  replace (S n - 1)%nat with n by lia.
  destruct (scalar_partial_length m k dt (S n) x0 v0 n) as [L1 L2].
  split; [exact L1|]. split; [exact L2|].
  destruct (scalar_partial_stable m k dt (S n) x0 v0 0 0 (Nat.le_refl 0) n)
    as [Z1 Z2]; [lia|].
  split.
  { rewrite Z1. reflexivity. }
  split.
  { rewrite Z2. reflexivity. }
  intros i Hi.
  destruct (scalar_partial_length m k dt (S n) x0 v0 i) as [Li1 Li2].
  destruct (lookup_lt_is_Some_2 (scalar_partial m k dt (S n) x0 v0 i).1 i)
    as [xi Ex]; [lia|].
  destruct (lookup_lt_is_Some_2 (scalar_partial m k dt (S n) x0 v0 i).2 i)
    as [vi Ev]; [lia|].
  exists xi, vi.
  destruct (scalar_partial_stable m k dt (S n) x0 v0 i i (Nat.le_refl i) n)
    as [A1 A2]; [lia|].
  destruct (scalar_partial_stable m k dt (S n) x0 v0 (S i) (S i)
              (Nat.le_refl (S i)) n) as [B1 B2]; [lia|].
  destruct (scalar_partial_succ_new m k dt (S n) x0 v0 i xi vi) as [C1 C2];
    [lia | exact Ex | exact Ev |].
  rewrite A1, A2, B1, B2. repeat split; assumption.
Qed.

(** *** Exact arithmetic: what the vector cell accumulates *)

(** A constant right-hand side [d]: row [i] is [y0 + i*dt*d], entry by
    entry.  With [d = 0] every row is [y0]. *)
Theorem euler_constant_deriv (d y0 : arr2 Q) (dt : Q) (time : nat -> Q)
    (N_steps i : nat) :
  (i < N_steps)%nat ->
  exists yi : arr2 Q,
    euler dt (fun _ _ => d) time N_steps y0 !! i = Some yi /\
    (at0 yi == at0 y0 + inject_Z (Z.of_nat i) * dt * at0 d)%Q /\
    (at1 yi == at1 y0 + inject_Z (Z.of_nat i) * dt * at1 d)%Q.
Proof.
  induction i as [|i IH]; intros Hi.
  - exists y0. split; [apply euler_lookup_zero; lia|].
    simpl. split; ring.
  - destruct IH as [yi [Ei [E0 E1]]]; [lia|].
    destruct (euler_lookup_succ dt (fun _ _ => d) time N_steps y0 i Hi)
      as [a [Ea Es]].
    rewrite Ei in Ea. injection Ea as <-.
    eexists. split; [exact Es|].
    rewrite Nat2Z.inj_succ. unfold Z.succ. rewrite inject_Z_plus.
    simpl. rewrite E0, E1. split; ring.
Qed.

Lemma euler_constant_deriv_example :
  exists yi : arr2 Q,
    euler (1 # 100)%Q (fun _ _ => Arr2 2%Q 3%Q) (fun _ => 0%Q) 11
      (Arr2 1%Q 0%Q) !! 10%nat = Some yi /\
    (at0 yi == 1 + inject_Z (Z.of_nat 10) * (1 # 100) * 2)%Q /\
    (at1 yi == 0 + inject_Z (Z.of_nat 10) * (1 # 100) * 3)%Q.
Proof.
  apply (euler_constant_deriv (Arr2 2%Q 3%Q) (Arr2 1%Q 0%Q) (1 # 100)%Q
           (fun _ => 0%Q) 11 10).
  lia.
Defined.

Lemma SHO_energy_step (m k dt : Q) (y : arr2 Q) (t : Q) :
  ~ (m == 0)%Q ->
  (SHO_energy m k (tadd y (tscale (SHO_deriv m k y t) dt))
   == (1 + k * (dt * dt) / m) * SHO_energy m k y)%Q.
Proof.
  intros Hm. destruct y as [x v]. unfold SHO_energy. simpl. field. exact Hm.
Qed.

(** The oscillator's energy under Euler's method: every step multiplies
    [k*x^2 + m*v^2] by [1 + k*dt^2/m], so after [i] steps it is
    [(1 + k*dt^2/m)^i] times what it was at the start.  The method does not
    conserve the energy for any [dt <> 0]. *)
Theorem SHO_energy_growth (m k dt x0 v0 : Q) (time : nat -> Q)
    (N_steps i : nat) :
  ~ (m == 0)%Q -> (i < N_steps)%nat ->
  exists yi : arr2 Q,
    euler dt (SHO_deriv m k) time N_steps (Arr2 x0 v0) !! i = Some yi /\
    (SHO_energy m k yi
     == (1 + k * (dt * dt) / m) ^ Z.of_nat i * SHO_energy m k (Arr2 x0 v0))%Q.
Proof.
  intros Hm. induction i as [|i IH]; intros Hi.
  - exists (Arr2 x0 v0). split; [apply euler_lookup_zero; lia|].
    simpl. ring.
  - destruct IH as [yi [Ei E]]; [lia|].
    destruct (euler_lookup_succ dt (SHO_deriv m k) time N_steps (Arr2 x0 v0) i Hi)
      as [a [Ea Es]].
    rewrite Ei in Ea. injection Ea as <-.
    eexists. split; [exact Es|].
    rewrite SHO_energy_step by exact Hm. rewrite E.
    rewrite Nat2Z.inj_succ. unfold Z.succ.
    rewrite Qpower_plus' by lia. simpl (_ ^ 1)%Q. ring.
Qed.

Lemma SHO_energy_growth_notebook :
  exists yi : arr2 Q,
    euler (1 # 100)%Q (SHO_deriv 1%Q 1%Q) (fun _ => 0%Q) 11 (Arr2 1%Q 0%Q) !! 10%nat
    = Some yi /\
    (SHO_energy 1 1 yi
     == (1 + 1 * ((1 # 100) * (1 # 100)) / 1) ^ Z.of_nat 10
        * SHO_energy 1 1 (Arr2 1%Q 0%Q))%Q.
Proof.
  apply (SHO_energy_growth 1%Q 1%Q (1 # 100)%Q 1%Q 0%Q (fun _ => 0%Q) 11 10).
  - discriminate.
  - lia.
Defined.

(** *** The two-dimensional run *)

Lemma circular_step (m k w dt : Q) (s : arr2 (arr2 Q)) (t : Q) :
  ~ (m == 0)%Q -> (k == w * w * m)%Q -> circular w s ->
  circular w (tadd s (tscale (SHO_deriv m k s t) dt)) /\
  (radius2 (tadd s (tscale (SHO_deriv m k s t) dt))
   == (1 + w * w * (dt * dt)) * radius2 s)%Q.
Proof.
  intros Hm Hk [C0 C1]. destruct s as [[x y] [vx vy]].
  unfold circular, radius2 in *. simpl in *.
  assert (Ek : (k / m == w * w)%Q) by (rewrite Hk; field; exact Hm).
  assert (E1 : (- k * x / m == - (k / m) * x)%Q) by (field; exact Hm).
  assert (E2 : (- k * y / m == - (k / m) * y)%Q) by (field; exact Hm).
  rewrite E1, E2, Ek, C0, C1. repeat split; ring.
Qed.

(** The two-dimensional run.  Started with the velocity at right angles to
    the position and [sqrt(k/m) = w] times as long, as the notebook does
    with [m = k = 1] from [(1, 0)] and [(0, 1)], the run keeps that relation,
    but the path is no circle: every step multiplies the squared distance
    from the origin by [1 + w^2 * dt^2]. *)
Theorem euler_2d_spiral (m k w dt : Q) (time : nat -> Q) (y0 : arr2 (arr2 Q))
    (N_steps i : nat) :
  ~ (m == 0)%Q -> (k == w * w * m)%Q -> circular w y0 -> (i < N_steps)%nat ->
  exists yi : arr2 (arr2 Q),
    euler dt (SHO_deriv m k) time N_steps y0 !! i = Some yi /\
    circular w yi /\
    (radius2 yi == (1 + w * w * (dt * dt)) ^ Z.of_nat i * radius2 y0)%Q.
Proof.
  intros Hm Hk C. induction i as [|i IH]; intros Hi.
  - exists y0. split; [apply euler_lookup_zero; lia|].
    split; [exact C|]. simpl. ring.
  - destruct IH as [yi [Ei [Ci R]]]; [lia|].
    destruct (euler_lookup_succ dt (SHO_deriv m k) time N_steps y0 i Hi)
      as [c [Ec Es]].
    rewrite Ei in Ec. injection Ec as <-.
    destruct (circular_step m k w dt yi (time i) Hm Hk Ci) as [C' R'].
    eexists. split; [exact Es|]. split; [exact C'|].
    rewrite R', R. rewrite Nat2Z.inj_succ. unfold Z.succ.
    rewrite Qpower_plus' by lia. simpl (_ ^ 1)%Q. ring.
Qed.

Lemma euler_2d_spiral_notebook :
  exists yi : arr2 (arr2 Q),
    euler (1 # 100)%Q (SHO_deriv 1%Q 1%Q) (fun _ => 0%Q) 11
      (Arr2 (Arr2 1%Q 0%Q) (Arr2 0%Q 1%Q)) !! 10%nat = Some yi /\
    circular 1 yi /\
    (radius2 yi
     == (1 + 1 * 1 * ((1 # 100) * (1 # 100))) ^ Z.of_nat 10
        * radius2 (Arr2 (Arr2 1%Q 0%Q) (Arr2 0%Q 1%Q)))%Q.
Proof.
  apply (euler_2d_spiral 1%Q 1%Q 1%Q (1 # 100)%Q (fun _ => 0%Q)
           (Arr2 (Arr2 1%Q 0%Q) (Arr2 0%Q 1%Q)) 11 10).
  - discriminate.
  - reflexivity.
  - split; reflexivity.
  - lia.
Defined.

(** *** The vector cell on the parameter cell's time array *)

(** Before its last entry, [np.linspace(t0, t1, n+1)] holds
    [i*step + t0] with [step = (t1 - t0)/n]. *)
Lemma linspace_inner (t0 t1 : Q) (n i : nat) :
  (1 <= n)%nat -> (i < n)%nat ->
  item zero (linspace t0 t1 (S n)) i
  = (of_nat i * ((t1 - t0) / of_nat n) + t0)%num.
Proof.
  intros Hn Hi. unfold linspace, item.
  destruct n as [|n]; [lia|].
  replace (S (S n) - 1)%nat with (S n) by lia.
  rewrite list_lookup_insert_ne by lia.
  change (map ?f ?l) with (f <$> l).
  rewrite list_lookup_fmap, lookup_seq_lt by lia. reflexivity.
Qed.

Lemma of_nat_pos (n : nat) : (1 <= n)%nat -> (0 < inject_Z (Z.of_nat n))%Q.
Proof. intros Hn. change 0%Q with (inject_Z 0). rewrite <- Zlt_Qlt. lia. Qed.

(** The loop steps the state with [dt] but reads the time it gives to the
    right-hand side from [time].  On [time = np.linspace(t0, t1, n+1)] with
    [n >= 1], in exact arithmetic, step [i] evaluates the right-hand side
    at a time equal to [t0 + i*(t1 - t0)/n], whatever [dt] is.  For
    [n >= 2] these are the times [t0 + i*dt] the loop has stepped to if and
    only if [t1 - t0] is [n] steps [dt]. *)
Theorem euler_on_linspace {St : Type} `{Tensor Q St}
    (deriv : St -> Q -> St) (y0 : St) (t0 t1 dt : Q) (n : nat) :
  (1 <= n)%nat ->
  let time := item zero (linspace t0 t1 (S n)) in
  let y := euler dt deriv time (S n) y0 in
  (forall i : nat, (i < n)%nat ->
     exists (yi : St) (t : Q),
       y !! i = Some yi /\
       (t == t0 + of_nat i * ((t1 - t0) / of_nat n))%Q /\
       y !! S i = Some (tadd yi (tscale (deriv yi t) dt))) /\
  ((2 <= n)%nat ->
   ((forall i : nat, (i < n)%nat -> (time i == t0 + of_nat i * dt)%Q) <->
    (t1 - t0 == of_nat n * dt)%Q)).
Proof.
  intros Hn time y.
  pose proof (of_nat_pos n Hn) as P.
  split.
  - intros i Hi.
    destruct (euler_lookup_succ dt deriv time (S n) y0 i) as [yi [Ei Es]]; [lia|].
    exists yi, (time i). split; [exact Ei|]. split; [|exact Es].
    unfold time. rewrite linspace_inner by assumption.
    cbn [add sub mul div of_nat Q_Number]. ring.
  - intros H2. split.
    + intros G. specialize (G 1%nat H2). unfold time in G.
      rewrite linspace_inner in G by lia.
      cbn [add sub mul div of_nat Q_Number] in G.
      change (inject_Z (Z.of_nat 1)) with 1%Q in G.
      assert (E : ((t1 - t0) / inject_Z (Z.of_nat n) == dt)%Q) by lra.
      rewrite <- E. cbn [of_nat Q_Number]. field. lra.
    + intros E i Hi. unfold time. rewrite linspace_inner by lia.
      cbn [add sub mul div of_nat Q_Number] in *.
      rewrite E. field. lra.
Qed.

(** The oscillator with [dt = 0.03] on a grid of 334 points from 0 to 10:
    333 steps of 0.03 end at 9.99, not at 10. *)
Lemma euler_on_linspace_notebook :
  let time := item zero (linspace 0%Q 10%Q 334) in
  let y := euler (3 # 100)%Q (SHO_deriv 1%Q 1%Q) time 334 (Arr2 1%Q 0%Q) in
  (forall i : nat, (i < 333)%nat ->
     exists (yi : arr2 Q) (t : Q),
       y !! i = Some yi /\
       (t == 0 + of_nat i * ((10 - 0) / of_nat 333))%Q /\
       y !! S i
       = Some (tadd yi (tscale (SHO_deriv 1%Q 1%Q yi t) (3 # 100)%Q))) /\
  ((2 <= 333)%nat ->
   ((forall i : nat, (i < 333)%nat ->
       (time i == 0 + of_nat i * (3 # 100))%Q) <->
    (10 - 0 == of_nat 333 * (3 # 100))%Q)).
Proof.
  apply (euler_on_linspace (SHO_deriv 1%Q 1%Q) (Arr2 1%Q 0%Q) 0%Q 10%Q
           (3 # 100)%Q 333).
  lia.
Defined.

End ODEMore.

(** ** BVP.ipynb *)

Module BVPMore.
Import BVP BVPFacts.

(** *** For every arithmetic *)

Section Generic.
Context {T : Type} `{Number T}.
Variable h : T -> T.
Variables (z1 a b tol : T) (max_iter : Z).

(** The residuals kept with the two ends are the residuals at those ends,
    and both ends are among the evaluated points. *)
Lemma ends_current_after (k : nat) :
  let s := after h z1 k (setup h z1 a b tol) in
  f_1 s = projectile_final_height_error h (v0_1 s) z1 /\
  f_2 s = projectile_final_height_error h (v0_2 s) z1 /\
  v0_1 s ∈ evals s /\ v0_2 s ∈ evals s.
Proof.
  induction k as [|k IH].
  - simpl. repeat split;
      [apply list_elem_of_here | apply list_elem_of_further, list_elem_of_here].
  - change (after h z1 (S k) (setup h z1 a b tol))
      with (body h z1 (after h z1 k (setup h z1 a b tol))).
    destruct IH as (F1 & F2 & E1 & E2). revert F1 F2 E1 E2.
    generalize (after h z1 k (setup h z1 a b tol)). intros s F1 F2 E1 E2.
    unfold body. destruct (gtb _ _); simpl;
      repeat split; try assumption;
      rewrite elem_of_app, list_elem_of_singleton; auto.
Qed.

Lemma iterations_bounded (k : nat) :
  (forall j : nat, (j < k)%nat ->
     guard tol max_iter (after h z1 j (setup h z1 a b tol)) = true) ->
  (Z.of_nat k <= Z.max 0 max_iter)%Z.
Proof.
  intros F. destruct k as [|k]; [lia|].
  assert (G : guard tol max_iter (after h z1 k (setup h z1 a b tol)) = true)
    by (apply F; lia).
  unfold guard in G. apply andb_prop in G as [_ G]. apply Z.ltb_lt in G.
  rewrite iter_after in G. simpl in G. lia.
Qed.

End Generic.

(** The residuals the cell keeps are never stale: when the loop ends,
    [f_1] and [f_2] are the residuals at [v0_1] and [v0_2], and both ends
    are points the residual was evaluated at. *)
Theorem bisection_ends_current {T : Type} `{Number T}
    (h : T -> T) (z1 a b tol : T) (max_iter : Z) :
  exists s : vars T,
    bisection h z1 a b tol max_iter = Some s /\
    f_1 s = projectile_final_height_error h (v0_1 s) z1 /\
    f_2 s = projectile_final_height_error h (v0_2 s) z1 /\
    v0_1 s ∈ evals s /\ v0_2 s ∈ evals s.
Proof.
  destruct (bisection_trace h z1 tol max_iter a b) as [k [s [B [E _]]]].
  exists s. split; [exact B|]. rewrite E. apply ends_current_after.
Qed.

(** The cost of a run: the loop body runs at most [max_iter] times (not at
    all for [max_iter <= 0]), and the residual, each evaluation of which is
    one integration, is evaluated at most [max_iter + 2] times. *)
Theorem bisection_cost {T : Type} `{Number T}
    (h : T -> T) (z1 a b tol : T) (max_iter : Z) :
  exists s : vars T,
    bisection h z1 a b tol max_iter = Some s /\
    (0 <= iter s <= Z.max 0 max_iter)%Z /\
    (Z.of_nat (length (evals s)) <= 2 + Z.max 0 max_iter)%Z.
Proof.
  destruct (bisection_trace h z1 tol max_iter a b) as [k [s [B [E [I [_ F]]]]]].
  pose proof (iterations_bounded h z1 a b tol max_iter k F) as Hk.
  destruct (evals_after h z1 k (setup h z1 a b tol)) as [mids [Ev L]].
  exists s. split; [exact B|]. split; [lia|].
  rewrite E, Ev, length_app, L. simpl. lia.
Qed.

(** *** In exact arithmetic *)

Section Exact.
Variable h : Q -> Q.
Variables (z1 a b tol : Q).
Variable max_iter : Z.

Local Abbreviation st k := (after h z1 k (setup h z1 a b tol)).

Lemma after_succ (k : nat) : st (S k) = body h z1 (st k).
Proof. reflexivity. Qed.

Lemma sign_after (k : nat) :
  (f_1 (st 0) * f_2 (st 0) <= 0)%Q -> (f_1 (st k) * f_2 (st k) <= 0)%Q.
Proof.
  intros I0. induction k as [|k IH]; [exact I0|].
  rewrite after_succ. apply body_keeps_sign, IH.
Qed.

Lemma pow2_pos (k : nat) : (0 < inject_Z (2 ^ Z.of_nat k))%Q.
Proof. change 0%Q with (inject_Z 0). rewrite <- Zlt_Qlt. lia. Qed.

Lemma pow2_succ (k : nat) :
  (inject_Z (2 ^ Z.of_nat (S k)) == 2 * inject_Z (2 ^ Z.of_nat k))%Q.
Proof.
  rewrite Nat2Z.inj_succ, Z.pow_succ_r by lia. rewrite inject_Z_mult.
  reflexivity.
Qed.

Lemma width_after (k : nat) :
  (v0_2 (st k) - v0_1 (st k) == (b - a) / inject_Z (2 ^ Z.of_nat k))%Q.
Proof.
  induction k as [|k IH].
  - simpl. change (inject_Z (2 ^ Z.of_nat 0)) with 1%Q. field.
  - rewrite after_succ, body_halves, IH, pow2_succ.
    pose proof (pow2_pos k). field. lra.
Qed.

(** After a run of the body [f_mid] is the residual kept with one of the
    two ends. *)
Lemma f_mid_is_end (s : vars Q) :
  f_mid (body h z1 s) = f_1 (body h z1 s) \/
  f_mid (body h z1 s) = f_2 (body h z1 s).
Proof.
  destruct (body_cases h z1 s) as [[_ ->] | [_ ->]]; [left | right];
    reflexivity.
Qed.

Lemma Qabs_opposite (x y : Q) : (x * y <= 0)%Q -> (Qabs x <= Qabs (x - y))%Q.
Proof.
  intros P.
  destruct (Qlt_le_dec x 0) as [Lx | Lx].
  - assert (0 <= y)%Q by nra.
    rewrite (Qabs_neg x) by lra. rewrite (Qabs_neg (x - y)) by lra. lra.
  - destruct (Qlt_le_dec 0 x) as [Gx | Gx].
    + assert (y <= 0)%Q by nra.
      rewrite (Qabs_pos x) by lra. rewrite (Qabs_pos (x - y)) by lra. lra.
    + assert (E : (x == 0)%Q) by lra. rewrite E.
      rewrite (Qabs_pos 0) by lra. apply Qabs_nonneg.
Qed.

Lemma inside_interval_body (lo hi : Q) (s : vars Q) :
  (lo <= v0_1 s <= hi)%Q -> (lo <= v0_2 s <= hi)%Q ->
  Forall (fun x => (lo <= x <= hi)%Q) (evals s) ->
  (lo <= v0_1 (body h z1 s) <= hi)%Q /\
  (lo <= v0_2 (body h z1 s) <= hi)%Q /\
  Forall (fun x => (lo <= x <= hi)%Q) (evals (body h z1 s)).
Proof.
  intros I1 I2 F.
  assert (M : (lo <= mid s <= hi)%Q) by (unfold mid; lra).
  destruct (body_cases h z1 s) as [[_ ->] | [_ ->]]; simpl;
    (split; [assumption|]); (split; [assumption|]);
    apply Forall_app; (split; [exact F | repeat constructor; apply M]).
Qed.

Lemma inside_interval_after (lo hi : Q) (k : nat) :
  (lo <= a <= hi)%Q -> (lo <= b <= hi)%Q ->
  (lo <= v0_1 (st k) <= hi)%Q /\
  (lo <= v0_2 (st k) <= hi)%Q /\
  Forall (fun x => (lo <= x <= hi)%Q) (evals (st k)).
Proof.
  intros Ia Ib. induction k as [|k (I1 & I2 & F)].
  - simpl. repeat split; try apply Ia; try apply Ib.
    repeat constructor; try apply Ia; apply Ib.
  - rewrite after_succ. apply inside_interval_body; assumption.
Qed.

End Exact.

(** The search never leaves the bracket.  Every point the residual is
    evaluated at, both ends of the final bracket among them, lies in any
    interval [[lo, hi]] that holds the two values the caller gave. *)
Theorem bisection_stays_in_bracket (h : Q -> Q) (z1 a b tol : Q)
    (max_iter : Z) (lo hi : Q) :
  (lo <= a <= hi)%Q -> (lo <= b <= hi)%Q ->
  exists s : vars Q,
    bisection h z1 a b tol max_iter = Some s /\
    (lo <= v0_1 s <= hi)%Q /\ (lo <= v0_2 s <= hi)%Q /\
    Forall (fun x => (lo <= x <= hi)%Q) (evals s).
Proof.
  intros Ia Ib.
  destruct (bisection_trace h z1 tol max_iter a b) as [k [s [B [E _]]]].
  exists s. split; [exact B|]. rewrite E.
  apply inside_interval_after; assumption.
Qed.

Lemma bisection_stays_in_bracket_notebook :
  exists s : vars Q,
    bisection ball_height_Q 0%Q 0%Q 50%Q (1 # 1000)%Q 100 = Some s /\
    (0 <= v0_1 s <= 50)%Q /\ (0 <= v0_2 s <= 50)%Q /\
    Forall (fun x => (0 <= x <= 50)%Q) (evals s).
Proof.
  apply (bisection_stays_in_bracket ball_height_Q 0%Q 0%Q 50%Q (1 # 1000)%Q
           100 0%Q 50%Q); split; discriminate.
Defined.

(** A run that ends before the iterations are used up has converged: with
    [tol > 0], if the cell ends with [iter < max_iter], then [v0_mid] is
    bound and the residual at it, which is [f_mid], is within [tol]. *)
Theorem bisection_early_exit_converged (h : Q -> Q) (z1 a b tol : Q)
    (max_iter : Z) :
  (0 < tol)%Q ->
  exists s : vars Q,
    bisection h z1 a b tol max_iter = Some s /\
    ((iter s < max_iter)%Z ->
     exists x : Q,
       v0_mid s = Some x /\
       f_mid s = projectile_final_height_error h x z1 /\
       (Qabs (projectile_final_height_error h x z1) <= tol)%Q).
Proof.
  intros Ht.
  destruct (bisection_trace h z1 tol max_iter a b) as [k [s [B [E [I [G F]]]]]].
  exists s. split; [exact B|]. intros Hlt.
  destruct k as [|j].
  { simpl in E. subst s. simpl in Hlt.
    rewrite guard_setup in G by (assumption || lia). discriminate. }
  change (s = body h z1 (after h z1 j (setup h z1 a b tol))) in E.
  eexists. split; [rewrite E; apply v0_mid_body|].
  assert (Ef : f_mid s = projectile_final_height_error h
                 (half * (v0_1 (after h z1 j (setup h z1 a b tol))
                          + v0_2 (after h z1 j (setup h z1 a b tol))))%num z1).
  { rewrite E. apply f_mid_body. }
  split; [exact Ef|]. rewrite <- Ef.
  apply guard_false in G as [G | G]; [exact G | lia].
Qed.

Lemma bisection_early_exit_converged_notebook :
  exists s : vars Q,
    bisection ball_height_Q 0%Q 0%Q 50%Q (1 # 1000)%Q 100 = Some s /\
    ((iter s < 100)%Z ->
     exists x : Q,
       v0_mid s = Some x /\
       f_mid s = projectile_final_height_error ball_height_Q x 0%Q /\
       (Qabs (projectile_final_height_error ball_height_Q x 0%Q) <= 1 # 1000)%Q).
Proof.
  apply (bisection_early_exit_converged ball_height_Q 0%Q 0%Q 50%Q (1 # 1000)%Q 100).
  reflexivity.
Defined.

Section Lipschitz.
Variable h : Q -> Q.
Variables (z1 a b tol : Q).
Variable max_iter : Z.
Variable L : Q.
Hypothesis lipschitz : forall x y : Q, (Qabs (h x - h y) <= L * Qabs (x - y))%Q.
Hypothesis bracket :
  (f_1 (setup h z1 a b tol) * f_2 (setup h z1 a b tol) <= 0)%Q.

Local Abbreviation st k := (after h z1 k (setup h z1 a b tol)).

Lemma L_nonneg : (0 <= L)%Q.
Proof.
  pose proof (lipschitz 1 0) as P.
  pose proof (Qabs_nonneg (h 1 - h 0)) as N.
  assert (E : (Qabs (1 - 0) == 1)%Q) by reflexivity.
  rewrite E in P. lra.
Qed.

(** The residuals at the two ends are no larger than [L] times the width
    of the bracket. *)
Lemma ends_small (k : nat) :
  (Qabs (f_1 (st k)) <= L * (Qabs (b - a) / inject_Z (2 ^ Z.of_nat k)))%Q /\
  (Qabs (f_2 (st k)) <= L * (Qabs (b - a) / inject_Z (2 ^ Z.of_nat k)))%Q.
Proof.
  destruct (ends_current_after h z1 a b tol k) as (F1 & F2 & _).
  pose proof (sign_after h z1 a b tol k bracket) as S.
  pose proof (width_after h z1 a b tol k) as W.
  pose proof (pow2_pos k) as P.
  assert (D : (Qabs (f_1 (st k) - f_2 (st k))
               <= L * (Qabs (b - a) / inject_Z (2 ^ Z.of_nat k)))%Q).
  { assert (E : (f_1 (st k) - f_2 (st k)
                 == h (v0_1 (st k)) - h (v0_2 (st k)))%Q).
    { rewrite F1, F2. unfold projectile_final_height_error.
      cbn [sub Q_Number]. ring. }
    rewrite E.
    eapply Qle_trans; [apply lipschitz|].
    rewrite !(Qmult_comm L). apply Qmult_le_compat_r; [|apply L_nonneg].
    assert (E' : (v0_1 (st k) - v0_2 (st k)
                  == - ((b - a) / inject_Z (2 ^ Z.of_nat k)))%Q).
    { rewrite <- W. ring. }
    rewrite E', Qabs_opp. unfold Qdiv. rewrite Qabs_Qmult.
    rewrite (Qabs_pos (/ inject_Z (2 ^ Z.of_nat k)));
      [apply Qle_refl | apply Qlt_le_weak, Qinv_lt_0_compat, P]. }
  split.
  - eapply Qle_trans; [apply Qabs_opposite, S | exact D].
  - assert (E : (Qabs (f_2 (st k) - f_1 (st k))
                 == Qabs (f_1 (st k) - f_2 (st k)))%Q).
    { rewrite <- (Qabs_opp (f_2 (st k) - f_1 (st k))).
      apply Qabs_wd. ring. }
    eapply Qle_trans; [apply (Qabs_opposite (f_2 (st k)) (f_1 (st k)))|].
    + rewrite Qmult_comm. exact S.
    + rewrite E. exact D.
Qed.

Lemma f_mid_small (k : nat) :
  (Qabs (f_mid (st (S k)))
   <= L * (Qabs (b - a) / inject_Z (2 ^ Z.of_nat (S k))))%Q.
Proof.
  destruct (ends_small (S k)) as [A B].
  change (st (S k)) with (body h z1 (st k)) in *.
  destruct (f_mid_is_end h z1 (st k)) as [-> | ->]; assumption.
Qed.

End Lipschitz.

(** Convergence.  For a residual that changes by at most [L] times the
    change of its argument, and a bracket with [f1 * f2 <= 0], the residual
    after [k >= 1] iterations is at most [L * |b - a| / 2^k] in size.  So if
    that bound is within [tol > 0] for some [K] with [1 <= K <= max_iter],
    the cell ends converged, [|f_mid| <= tol], after at most [K]
    iterations. *)
Theorem bisection_converges (h : Q -> Q) (z1 a b tol : Q) (max_iter : Z)
    (L : Q) (K : nat) :
  (forall x y : Q, (Qabs (h x - h y) <= L * Qabs (x - y))%Q) ->
  (f_1 (setup h z1 a b tol) * f_2 (setup h z1 a b tol) <= 0)%Q ->
  (0 < tol)%Q -> (1 <= K)%nat -> (Z.of_nat K <= max_iter)%Z ->
  (L * (Qabs (b - a) / inject_Z (2 ^ Z.of_nat K)) <= tol)%Q ->
  (forall k : nat,
     (Qabs (f_mid (after h z1 (S k) (setup h z1 a b tol)))
      <= L * (Qabs (b - a) / inject_Z (2 ^ Z.of_nat (S k))))%Q) /\
  exists s : vars Q,
    bisection h z1 a b tol max_iter = Some s /\
    (1 <= iter s <= Z.of_nat K)%Z /\
    (Qabs (f_mid s) <= tol)%Q.
Proof.
  intros Lip Br Ht HK HKm Hb.
  split; [intros k; apply f_mid_small; assumption|].
  destruct (bisection_trace h z1 tol max_iter a b) as [k [s [B [E [I [G F]]]]]].
  exists s. split; [exact B|].
  destruct K as [|K']; [lia|].
  pose proof (f_mid_small h z1 a b tol L Lip Br K') as FK.
  assert (Hk : (k <= S K')%nat).
  { destruct (Nat.le_gt_cases k (S K')) as [Le | Gt]; [exact Le|].
    specialize (F (S K') Gt). apply guard_true in F as [F _]. lra. }
  assert (H1 : (1 <= k)%nat).
  { destruct k as [|k]; [|lia]. simpl in E. subst s.
    rewrite guard_setup in G by (assumption || lia). discriminate. }
  split; [lia|].
  apply guard_false in G as [G | G]; [exact G|].
  assert (k = S K') as -> by lia.
  rewrite E. lra.
Qed.

Lemma ball_height_Q_lipschitz (x y : Q) :
  (Qabs (ball_height_Q x - ball_height_Q y) <= 10 * Qabs (x - y))%Q.
Proof.
  unfold ball_height_Q.
  assert (E : (10 * x - (4905 # 10) - (10 * y - (4905 # 10)) == 10 * (x - y))%Q)
    by ring.
  rewrite E, Qabs_Qmult. apply Qle_refl.
Qed.

(** The notebook's search: the height is 10 times the velocity plus a
    constant, the bracket is [(0, 50)] and [500 / 2^19 <= 1e-3]. *)
Lemma bisection_converges_notebook :
  (forall k : nat,
     (Qabs (f_mid (after ball_height_Q 0%Q (S k)
                     (setup ball_height_Q 0%Q 0%Q 50%Q (1 # 1000)%Q)))
      <= 10 * (Qabs (50 - 0) / inject_Z (2 ^ Z.of_nat (S k))))%Q) /\
  exists s : vars Q,
    bisection ball_height_Q 0%Q 0%Q 50%Q (1 # 1000)%Q 100 = Some s /\
    (1 <= iter s <= Z.of_nat 19)%Z /\
    (Qabs (f_mid s) <= 1 # 1000)%Q.
Proof.
  apply (bisection_converges ball_height_Q 0%Q 0%Q 50%Q (1 # 1000)%Q 100
           10%Q 19).
  - exact ball_height_Q_lipschitz.
  - apply Qle_bool_imp_le. reflexivity.
  - reflexivity.
  - lia.
  - lia.
  - apply Qle_bool_imp_le. reflexivity.
Defined.

Section OneSigned.
Variable h : Q -> Q.
Variables (z1 a b tol : Q).
Variable max_iter : Z.
Hypothesis tol_pos : (0 < tol)%Q.
Hypothesis one_signed :
  (forall x : Q, (tol < projectile_final_height_error h x z1)%Q) \/
  (forall x : Q, (projectile_final_height_error h x z1 < - tol)%Q).

Local Abbreviation st k := (after h z1 k (setup h z1 a b tol)).

Lemma residual_large (x : Q) :
  (tol < Qabs (projectile_final_height_error h x z1))%Q.
Proof.
  destruct one_signed as [P | N].
  - specialize (P x). rewrite Qabs_pos by lra. exact P.
  - specialize (N x). rewrite Qabs_neg by lra. lra.
Qed.

Lemma residuals_same_sign (x y : Q) :
  (0 < projectile_final_height_error h x z1
       * projectile_final_height_error h y z1)%Q.
Proof.
  destruct one_signed as [P | N].
  - pose proof (P x). pose proof (P y). nra.
  - pose proof (N x). pose proof (N y). nra.
Qed.

(** The low end is the one replaced, every time. *)
Lemma high_end_kept (k : nat) : v0_2 (st k) = b.
Proof.
  induction k as [|k IH]; [reflexivity|].
  change (st (S k)) with (body h z1 (st k)).
  destruct (ends_current_after h z1 a b tol k) as (F1 & _).
  destruct (body_cases h z1 (st k)) as [[_ ->] | [P _]]; [exact IH|].
  exfalso. unfold fmid in P. rewrite F1 in P.
  pose proof (residuals_same_sign (mid (st k)) (v0_1 (st k))). lra.
Qed.

Lemma guard_stays_true (k : nat) :
  (Z.of_nat k < max_iter)%Z -> guard tol max_iter (st k) = true.
Proof.
  intros Hk. apply guard_true. split; [|rewrite iter_after; simpl; lia].
  destruct k as [|k].
  - change (f_mid (st 0)) with (10 * tol)%Q. rewrite Qabs_pos by lra. lra.
  - change (st (S k)) with (body h z1 (st k)). rewrite f_mid_body.
    apply residual_large.
Qed.

End OneSigned.

(** A residual of one sign.  When the residual is above [tol > 0]
    everywhere, or below [-tol] everywhere, so that the bracket holds no
    root, the cell raises nothing and does not stop early: it uses all
    [max_iter] iterations, replaces the low end every time and ends with
    the bracket [(b - (b - a)/2^max_iter, b)], closing in on the high end
    the caller gave. *)
Theorem bisection_one_signed (h : Q -> Q) (z1 a b tol : Q) (max_iter : Z) :
  (0 < tol)%Q -> (0 <= max_iter)%Z ->
  (forall x : Q, (tol < projectile_final_height_error h x z1)%Q) \/
  (forall x : Q, (projectile_final_height_error h x z1 < - tol)%Q) ->
  exists s : vars Q,
    bisection h z1 a b tol max_iter = Some s /\
    iter s = max_iter /\
    v0_2 s = b /\
    (b - v0_1 s == (b - a) / inject_Z (2 ^ max_iter))%Q /\
    (tol < Qabs (f_mid s))%Q.
Proof.
  intros Ht Hm Sg.
  destruct (bisection_trace h z1 tol max_iter a b) as [k [s [B [E [I [G F]]]]]].
  pose proof (iterations_bounded h z1 a b tol max_iter k F) as Hk.
  assert (Ek : Z.of_nat k = max_iter).
  { destruct (Z.lt_ge_cases (Z.of_nat k) max_iter) as [Lt | Ge]; [|lia].
    rewrite E in G.
    rewrite (guard_stays_true h z1 a b tol max_iter Ht Sg k Lt) in G.
    discriminate. }
  exists s. split; [exact B|]. split; [lia|].
  split; [rewrite E; apply high_end_kept; assumption|].
  split.
  - pose proof (width_after h z1 a b tol k) as W.
    rewrite (high_end_kept h z1 a b tol Ht Sg k) in W.
    rewrite E, <- Ek. exact W.
  - rewrite E. destruct k as [|k].
    + change (f_mid (after h z1 0 (setup h z1 a b tol))) with (10 * tol)%Q.
      rewrite Qabs_pos by lra. lra.
    + change (after h z1 (S k) (setup h z1 a b tol))
        with (body h z1 (after h z1 k (setup h z1 a b tol))).
      rewrite f_mid_body. apply residual_large; assumption.
Qed.

(** The residual that is 1 everywhere, on the bracket [(0, 50)] with three
    iterations. *)
Lemma bisection_one_signed_example :
  exists s : vars Q,
    bisection (fun _ : Q => 1%Q) 0%Q 0%Q 50%Q (1 # 1000)%Q 3 = Some s /\
    iter s = 3%Z /\
    v0_2 s = 50%Q /\
    (50 - v0_1 s == (50 - 0) / inject_Z (2 ^ 3))%Q /\
    ((1 # 1000) < Qabs (f_mid s))%Q.
Proof.
  apply (bisection_one_signed (fun _ : Q => 1%Q) 0%Q 0%Q 50%Q (1 # 1000)%Q 3).
  - reflexivity.
  - lia.
  - left. intros x. reflexivity.
Defined.

End BVPMore.
